(** * ai_roast_back: the grading endpoint and its sliding-window rate limiter

    A shallow embedding of [main.py]: the in-memory rate limit store and
    [is_rate_limited], the prompt generator [generate_prompt], and the
    request handler [grade_answer], followed by the properties of the
    specification that are about them.

    Conventions of the embedding.
    - [time.time()] is read once per call of [is_rate_limited]; the reading
      is the argument [now].  Instants are exact numbers of seconds in [Z];
      the rounding of Python's floats is not modelled.
    - [rate_limit_store] is a [defaultdict(list)]: a finite map from the
      client address to its list of timestamps, in which subscripting an
      absent key inserts the empty list.  It is threaded through the code
      by a small state monad.
    - [is_rate_limited] returns [True] when the caller is limited (the
      specification's Denied) and [False] when the call is recorded
      (Admitted). *)

From stdpp Require Import gmap strings list fin_maps pretty.
From Stdlib Require Import Ascii ZArith Lia.

Local Open Scope Z_scope.
#[local] Set Warnings "-register-all".

(** ** The state monad of the store *)

Module StoreMonad.

Definition M (S A : Type) : Type := S → A * S.

Definition ret {S A} (a : A) : M S A := λ s, (a, s).

Definition bind {S A B} (k : A → M S B) (m : M S A) : M S B :=
  λ s, let '(a, s') := m s in k a s'.

#[export] Instance M_ret {S} : MRet (M S) := @ret S.
#[export] Instance M_bind {S} : MBind (M S) := @bind S.

End StoreMonad.

(** ** The sliding-window limiter *)

Module Limiter.
Import StoreMonad.

(** [rate_limit_store = defaultdict(list)], structure [{ip: [timestamps]}]. *)
Abbreviation store := (gmap string (list Z)).

Definition RATE_LIMIT : nat := 1.
Definition WINDOW_SECONDS : Z := 3600.

(** [rate_limit_store[ip]] as an expression: a [defaultdict] inserts the
    default value, here the empty list, under a missing key. *)
Definition dd_getitem (ip : string) : M store (list Z) :=
  λ st, match st !! ip with
        | Some w => (w, st)
        | None => ([], <[ip := []]> st)
        end.

(** [rate_limit_store[ip] = w]. *)
Definition dd_setitem (ip : string) (w : list Z) : M store unit :=
  λ st, (tt, <[ip := w]> st).

(** [rate_limit_store[ip].append(x)]: the list held by the store is
    extended in place. *)
Definition dd_append (ip : string) (x : Z) : M store unit :=
  w ← dd_getitem ip;
  dd_setitem ip (w ++ [x]).

(** [[ts for ts in timestamps if now - ts < WINDOW_SECONDS]]. *)
Definition compact (now : Z) (timestamps : list Z) : list Z :=
  filter (λ ts, now - ts < WINDOW_SECONDS) timestamps.

(** [is_rate_limited], statement by statement.  The list comprehension
    builds a new list, so the later [append] extends the list that the
    store holds, not the one bound to [timestamps]. *)
Definition is_rate_limited (now : Z) (ip : string) : M store bool :=
  timestamps ← dd_getitem ip;
  dd_setitem ip (compact now timestamps);;
  w ← dd_getitem ip;
  if (RATE_LIMIT <=? length w)%nat then mret true
  else dd_append ip now;; mret false.

(** The window of an identity as the limiter sees it: an absent entry
    reads as the empty window. *)
Definition window (st : store) (ip : string) : list Z :=
  default [] (st !! ip).

(** A run of the limiter: the calls, in order, with the instant each one
    reads, and the verdict of each. *)
Fixpoint run_calls (calls : list (string * Z)) (st : store)
  : list bool * store :=
  match calls with
  | [] => ([], st)
  | (ip, now) :: rest =>
      let '(r, st') := is_rate_limited now ip st in
      let '(rs, st'') := run_calls rest st' in
      (r :: rs, st'')
  end.

(** The calls of one identity at the given instants, each paired with its
    verdict. *)
Fixpoint run_identity (ip : string) (times : list Z) (st : store)
  : list (Z * bool) * store :=
  match times with
  | [] => ([], st)
  | now :: rest =>
      let '(r, st') := is_rate_limited now ip st in
      let '(rs, st'') := run_identity ip rest st' in
      ((now, r) :: rs, st'')
  end.

(** The instant of the last call of [ip] in a run, if it made one. *)
Fixpoint last_access (calls : list (string * Z)) (ip : string) : option Z :=
  match calls with
  | [] => None
  | (ip', now) :: rest =>
      match last_access rest ip with
      | Some n => Some n
      | None => if String.eqb ip' ip then Some now else None
      end
  end.

(** What the store holds for an identity whose last call, if any, read
    the instant [last]: nothing before its first call; afterwards a window
    of at most [RATE_LIMIT] timestamps, each less than [WINDOW_SECONDS]
    before that instant. *)
Definition window_ok (last : option Z) (entry : option (list Z)) : Prop :=
  match last with
  | None => entry = None
  | Some n =>
      ∃ w, entry = Some w ∧
           Forall (λ t, n - t < WINDOW_SECONDS) w ∧
           (length w ≤ RATE_LIMIT)%nat
  end.

(** Instants in strictly increasing order. *)
Fixpoint increasing (times : list Z) : Prop :=
  match times with
  | [] => True
  | t :: rest => Forall (λ u, t < u) rest ∧ increasing rest
  end.

(** *** The statements of [is_rate_limited], one at a time

    Where a caller stands in the body of [is_rate_limited]: before the
    lookup of line 29, before the assignment of line 32 with the list bound
    to [timestamps], before the test of line 34, before the [append] of
    line 37, or returned. *)
Inductive position :=
| AtLookup
| AtCompact (timestamps : list Z)
| AtCheck
| AtAppend
| Returned (limited : bool).

Definition statement (now : Z) (ip : string) (pos : position)
  : M store position :=
  match pos with
  | AtLookup => timestamps ← dd_getitem ip; mret (AtCompact timestamps)
  | AtCompact timestamps =>
      dd_setitem ip (compact now timestamps);; mret AtCheck
  | AtCheck =>
      w ← dd_getitem ip;
      mret (if (RATE_LIMIT <=? length w)%nat then Returned true else AtAppend)
  | AtAppend => dd_append ip now;; mret (Returned false)
  | Returned limited => mret (Returned limited)
  end.

Fixpoint statements (n : nat) (now : Z) (ip : string) (pos : position)
  : M store position :=
  match n with
  | O => mret pos
  | S n' => pos' ← statement now ip pos; statements n' now ip pos'
  end.

(** Two callers of one identity whose statements a scheduler interleaves:
    [true] runs the next statement of the first caller, [false] of the
    second. *)
Fixpoint interleave (turns : list bool) (now1 now2 : Z) (ip : string)
    (pos : position * position) : M store (position * position) :=
  match turns with
  | [] => mret pos
  | true :: rest =>
      pos1 ← statement now1 ip pos.1;
      interleave rest now1 now2 ip (pos1, pos.2)
  | false :: rest =>
      pos2 ← statement now2 ip pos.2;
      interleave rest now1 now2 ip (pos.1, pos2)
  end.

End Limiter.

(** ** The limiter of the specification *)

Module Spec.
Import Limiter.

(** The two outcomes of the contract; [Accepted] is the outcome that the
    specification calls Admitted. *)
Inductive verdict := Accepted | Denied.

(** Step 2 of the contract, written as a recursion of its own: retain the
    timestamps [t] with [now - t < WINDOW_SECONDS], in their order. *)
Fixpoint retain (now : Z) (w : list Z) : list Z :=
  match w with
  | [] => []
  | t :: rest =>
      if now - t <? 3600 then t :: retain now rest else retain now rest
  end.

(** [CheckAndRecord(identity, now)] after the four steps of the contract. *)
Definition CheckAndRecord (identity : string) (now : Z) (st : store)
  : verdict * store :=
  let w := retain now (window st identity) in
  if (1 <=? length w)%nat
  then (Denied, <[identity := w]> st)
  else (Accepted, <[identity := w ++ [now]]> st).

Definition verdict_of_bool (limited : bool) : verdict :=
  if limited then Denied else Accepted.

End Spec.

(** ** Strings and JSON values *)

Module Text.

(** The line feed of the f-string's [\n]. *)
Definition nl : string := String "010"%char EmptyString.

Definition dquote : ascii := "034"%char.
Definition backslash : ascii := "092"%char.

(** [s.startswith(needle)]. *)
Fixpoint starts_with (needle s : string) : bool :=
  match needle with
  | EmptyString => true
  | String a needle' =>
      match s with
      | EmptyString => false
      | String b s' => Ascii.eqb a b && starts_with needle' s'
      end
  end.

(** [needle in s] on Python strings. *)
Fixpoint contains (s needle : string) : bool :=
  starts_with needle s ||
  match s with
  | EmptyString => false
  | String _ s' => contains s' needle
  end.

(** A string holds the UTF-8 bytes of the Python string.  The bytes
    [10xxxxxx] continue the character that an earlier byte starts. *)
Definition is_continuation (c : ascii) : bool :=
  ((128 <=? nat_of_ascii c) && (nat_of_ascii c <? 192))%nat.

(** [s[:n]]: the first [n] characters, that is the bytes before the byte
    that starts character [n + 1]. *)
Fixpoint str_take (n : nat) (s : string) : string :=
  match s with
  | EmptyString => EmptyString
  | String c s' =>
      if is_continuation c then String c (str_take n s')
      else match n with
           | O => EmptyString
           | S n' => String c (str_take n' s')
           end
  end.

End Text.

Module Json.
Import Text.

(** The values that [response.json()] returns and that the handler sends.
    Numbers are integers: fractional and non-finite numbers are left out;
    like the integers they can be neither subscripted nor sliced. *)
Inductive json :=
| JNull
| JBool (b : bool)
| JNum (n : Z)
| JStr (s : string)
| JArr (items : list json)
| JObj (fields : list (string * json)).

(** [d[k]] on a parsed object: the value under the key, if any. *)
Fixpoint assoc (k : string) (fields : list (string * json)) : option json :=
  match fields with
  | [] => None
  | (k', v) :: rest => if String.eqb k k' then Some v else assoc k rest
  end.

(** [j[k]] for a string [k]; [None] stands for the exception Python
    raises ([KeyError] on an object without the key, [TypeError] on a
    list, a string, a number, a boolean or [None]). *)
Definition subscript_key (j : json) (k : string) : option json :=
  match j with
  | JObj fields => assoc k fields
  | _ => None
  end.

(** [j[0]]; [None] stands for [IndexError], [KeyError] (the keys of a
    parsed object are strings) or [TypeError]. *)
Definition subscript_0 (j : json) : option json :=
  match j with
  | JArr (x :: _) => Some x
  | JStr (String c _) => Some (JStr (String c EmptyString))
  | _ => None
  end.

(** [j[:100]]; defined on strings and lists, [None] for the exception
    raised on anything else. *)
Definition slice_100 (j : json) : option json :=
  match j with
  | JStr s => Some (JStr (str_take 100 s))
  | JArr l => Some (JArr (take 100 l))
  | _ => None
  end.

Definition hex_digit (n : nat) : ascii :=
  nth n ["0"; "1"; "2"; "3"; "4"; "5"; "6"; "7";
         "8"; "9"; "a"; "b"; "c"; "d"; "e"; "f"]%char "0"%char.

(** A character inside a JSON string, as [json.dumps] writes it with
    [ensure_ascii=False]: the quote and the backslash after a backslash;
    backspace, tab, line feed, form feed and carriage return as a backslash
    and a letter; the other characters below 32 as a backslash, [u00] and
    two hexadecimal digits; every other byte as it is. *)
Definition escape_char (c : ascii) : string :=
  let n := nat_of_ascii c in
  let after_backslash (x : string) := String backslash x in
  if (n =? 34)%nat then after_backslash (String dquote EmptyString)
  else if (n =? 92)%nat then after_backslash (String backslash EmptyString)
  else if (n =? 8)%nat then after_backslash "b"
  else if (n =? 9)%nat then after_backslash "t"
  else if (n =? 10)%nat then after_backslash "n"
  else if (n =? 12)%nat then after_backslash "f"
  else if (n =? 13)%nat then after_backslash "r"
  else if (n <? 32)%nat then
    after_backslash
      ("u00" +:+ String (hex_digit (n / 16)) (String (hex_digit (n mod 16))
                                                EmptyString))
  else String c EmptyString.

Fixpoint escape (s : string) : string :=
  match s with
  | EmptyString => EmptyString
  | String c s' => escape_char c +:+ escape s'
  end.

Definition quoted (s : string) : string :=
  String dquote (escape s +:+ String dquote EmptyString).

(** The body of a JSON response, with the separators [","] and [":"]. *)
Fixpoint render (j : json) : string :=
  match j with
  | JNull => "null"
  | JBool true => "true"
  | JBool false => "false"
  | JNum n => pretty n
  | JStr s => quoted s
  | JArr items =>
      "[" +:+
      (fix items_text (l : list json) : string :=
         match l with
         | [] => ""
         | x :: l' =>
             match l' with
             | [] => render x
             | _ :: _ => render x +:+ "," +:+ items_text l'
             end
         end) items +:+ "]"
  | JObj fields =>
      "{" +:+
      (fix fields_text (l : list (string * json)) : string :=
         match l with
         | [] => ""
         | (k, v) :: l' =>
             match l' with
             | [] => quoted k +:+ ":" +:+ render v
             | _ :: _ => quoted k +:+ ":" +:+ render v +:+ "," +:+ fields_text l'
             end
         end) fields +:+ "}"
  end.

End Json.

(** ** The prompt generator *)

Module Prompt.
Import Text.

Definition harsh_tone : string :=
  "Respond harshly and sarcastically, but still provide the correct answer.".

Definition kind_tone : string :=
  "Respond kindly and encouragingly, offering constructive feedback.".

Definition generate_prompt (question answer mode : string) : string :=
  let tone := if String.eqb mode "drill" then harsh_tone else kind_tone in
  "You are an AI coding instructor." +:+ nl +:+ nl +:+
  "Question: " +:+ question +:+ nl +:+
  "Student's Answer: " +:+ answer +:+ nl +:+ nl +:+
  tone.

End Prompt.

(** ** The request handler *)

Module Handler.
Import StoreMonad Text Json Prompt Limiter.

(** [class AnswerRequest(BaseModel)]. *)
Record AnswerRequest := {
  question : string;
  answer : string;
  mode : string
}.

(** What lines 85-92 deliver to the rest of the [try] block: an exception
    of [client.post] (connection failure, timeout), the
    [httpx.HTTPStatusError] of [raise_for_status] with the status and text
    of the response it carries, an exception of [response.json()], or the
    parsed body. *)
Inductive upstream :=
| PostRaises
| StatusError (status_code : Z) (text : string)
| JsonRaises
| Parsed (result : json).

(** How the handler ends: [return JSONResponse(...)], [return {...}], or
    [raise HTTPException(...)]. *)
Inductive result :=
| JSONResponse (status_code : Z) (content : json)
| ReturnDict (content : json)
| HTTPException (status_code : Z) (detail : string).

(** The effects of the handler that the properties mention: the log
    records and the outbound request. *)
Inductive event :=
| LogInfoIncoming (payload : AnswerRequest)
| LogWarningRateLimit (client_ip : string)
| Post (url : string) (headers : list (string * string)) (data : json)
| LogInfoReply (shown : json)
| LogErrorUpstream (status_code : Z) (text : string)
| LogExceptionUnexpected.

Definition request : Type := string * list (string * string) * json.

Definition quota_message : string :=
  "Sorry, you reached the limit. You can only submit 3 times per hour. OpenAI isn't cheap.".

Definition is_post (e : event) : bool :=
  match e with Post _ _ _ => true | _ => false end.

(** The number of outbound requests among the effects. *)
Definition gateway_calls (events : list event) : nat :=
  length (List.filter is_post events).

(** The status and body the framework sends for each way of ending: a
    [JSONResponse] as it is, an [HTTPException] with its status and
    [{"detail": detail}], a returned dict with status 200.  The last holds
    for a dict that the framework can encode, as all values of [json] can;
    for one that it cannot (a number that is not finite, a string that is
    not Unicode text) the framework answers 500 on its own. *)
Definition http_response (r : result) : Z * json :=
  match r with
  | JSONResponse status_code content => (status_code, content)
  | ReturnDict content => (200, content)
  | HTTPException status_code detail =>
      (status_code, JObj [("detail", JStr detail)])
  end.

Definition internal_error : result * list event :=
  (HTTPException 500 "Internal server error.", [LogExceptionUnexpected]).

Section WithEnvironment.

(** [os.getenv("OPENAI_API_KEY")]: a string, or [None]. *)
Variable OPENAI_API_KEY : option string.

(** The handler up to its only suspension point, the awaited
    [client.post] inside [async with]: the log record, the limiter, and
    either the 429 response or the request that is sent. *)
Definition grade_answer_begin (now : Z) (client_ip : string)
    (payload : AnswerRequest)
  : M store ((result + request) * list event) :=
  limited ← is_rate_limited now client_ip;
  if limited : bool then
    mret (inl (JSONResponse 429 (JObj [("detail", JStr quota_message)])),
          [LogInfoIncoming payload; LogWarningRateLimit client_ip])
  else
    let prompt :=
      generate_prompt (question payload) (answer payload) (mode payload) in
    let headers :=
      [("Authorization", "Bearer " +:+ default "None" OPENAI_API_KEY);
       ("Content-Type", "application/json")] in
    let data :=
      JObj [("model", JStr "gpt-4o");
            ("messages",
             JArr [JObj [("role", JStr "system"); ("content", JStr prompt)];
                   JObj [("role", JStr "user");
                         ("content", JStr (answer payload))]])] in
    let req := ("https://api.openai.com/v1/chat/completions", headers, data) in
    mret (inr req,
          [LogInfoIncoming payload;
           Post "https://api.openai.com/v1/chat/completions" headers data]).

(** [result["choices"][0]["message"]["content"]]. *)
Definition reply_of (result : json) : option json :=
  choices ← subscript_key result "choices";
  first ← subscript_0 choices;
  message ← subscript_key first "message";
  subscript_key message "content".

(** The handler from the point where the awaited call returns or
    raises. *)
Definition grade_answer_resume (u : upstream) : result * list event :=
  match u with
  | StatusError status_code text =>
      (HTTPException 500 "Error from OpenAI API.",
       [LogErrorUpstream status_code text])
  | PostRaises | JsonRaises => internal_error
  | Parsed result =>
      match reply_of result with
      | Some reply =>
          match slice_100 reply with
          | Some shown =>
              (ReturnDict (JObj [("response", reply)]), [LogInfoReply shown])
          | None => internal_error
          end
      | None => internal_error
      end
  end.

(** One submission from start to end, against a gateway that answers
    the request with [gateway req]. *)
Definition grade_answer (gateway : request → upstream) (now : Z)
    (client_ip : string) (payload : AnswerRequest)
  : M store (result * list event) :=
  started ← grade_answer_begin now client_ip payload;
  match started with
  | (inl r, events) => mret (r, events)
  | (inr req, events) =>
      let '(r, events') := grade_answer_resume (gateway req) in
      mret (r, events ++ events')
  end.

End WithEnvironment.

End Handler.

(** ** Handlers in flight on one event loop

  [grade_answer] is a coroutine.  The event loop runs one coroutine at a
  time and changes to another one only where the running one awaits; the
  handler awaits in one place, the outbound request, which comes after
  the call of [is_rate_limited].  A schedule chooses which pending
  handler to start, with the reading of the clock it will get, and which
  awaited request to complete, with its outcome. *)

Module EventLoop.
Import StoreMonad Limiter Handler.

Inductive task :=
| Pending (client_ip : string) (payload : AnswerRequest)
| Awaiting (req : request)
| Finished (r : result).

Record system := {
  rate_limit_store : store;
  log : list event;
  tasks : list task
}.

Inductive choice :=
| Start (i : nat) (now : Z)
| Deliver (i : nat) (u : upstream).

Section WithEnvironment.

Variable OPENAI_API_KEY : option string.

Definition step (c : choice) (sys : system) : option system :=
  match c with
  | Start i now =>
      match tasks sys !! i with
      | Some (Pending client_ip payload) =>
          let '((r, events), st') :=
            grade_answer_begin OPENAI_API_KEY now client_ip payload
              (rate_limit_store sys) in
          let t := match r with
                   | inl res => Finished res
                   | inr req => Awaiting req
                   end in
          Some {| rate_limit_store := st';
                  log := log sys ++ events;
                  tasks := <[i := t]> (tasks sys) |}
      | _ => None
      end
  | Deliver i u =>
      match tasks sys !! i with
      | Some (Awaiting _) =>
          let '(res, events) := grade_answer_resume u in
          Some {| rate_limit_store := rate_limit_store sys;
                  log := log sys ++ events;
                  tasks := <[i := Finished res]> (tasks sys) |}
      | _ => None
      end
  end.

Fixpoint run (schedule : list choice) (sys : system) : option system :=
  match schedule with
  | [] => Some sys
  | c :: rest =>
      match step c sys with
      | Some sys' => run rest sys'
      | None => None
      end
  end.

End WithEnvironment.

(** The instants read by the handlers that a schedule starts. *)
Fixpoint start_times (schedule : list choice) : list Z :=
  match schedule with
  | [] => []
  | Start _ now :: rest => now :: start_times rest
  | Deliver _ _ :: rest => start_times rest
  end.

(** A handler was denied when it ended with the 429 response, and was
    admitted when it got past the limiter. *)
Definition denied (t : task) : Prop :=
  t = Finished (JSONResponse 429 (Json.JObj [("detail", Json.JStr quota_message)])).

Definition admitted (t : task) : Prop :=
  match t with
  | Pending _ _ => False
  | Awaiting _ => True
  | Finished r => ∀ content, r ≠ JSONResponse 429 content
  end.

(** Of two handlers, one was admitted and the other denied, and one
    outbound request was sent. *)
Definition one_admitted (sys : system) : Prop :=
  ∃ t1 t2, tasks sys = [t1; t2] ∧
    ((admitted t1 ∧ denied t2) ∨ (denied t1 ∧ admitted t2)) ∧
    gateway_calls (log sys) = 1%nat.

(** Of two handlers of [ip], one was admitted at the instant [n], which is
    the window of [ip], and the other has not started. *)
Definition one_started (ip : string) (n : Z) (sys : system) : Prop :=
  ∃ t1 t2, tasks sys = [t1; t2] ∧
    ((admitted t1 ∧ ∃ p, t2 = Pending ip p) ∨
     ((∃ p, t1 = Pending ip p) ∧ admitted t2)) ∧
    window (rate_limit_store sys) ip = [n] ∧
    gateway_calls (log sys) = 1%nat.

Definition started (t : task) : Prop :=
  match t with Pending _ _ => False | _ => True end.

End EventLoop.

(** ** Runs of several identities *)

Module Runs.
Import Limiter Handler EventLoop.

(** The identities that call in a run. *)
Definition callers (calls : list (string * Z)) : gset string :=
  list_to_set (calls.*1).

(** The instants of the calls of [ip] in a run, in order. *)
Fixpoint calls_of (ip : string) (calls : list (string * Z)) : list Z :=
  match calls with
  | [] => []
  | (ip', now) :: rest =>
      if String.eqb ip' ip then now :: calls_of ip rest else calls_of ip rest
  end.

(** The verdicts that the calls of [ip] got in a run. *)
Fixpoint verdicts_of (ip : string) (calls : list (string * Z))
    (verdicts : list bool) : list bool :=
  match calls, verdicts with
  | (ip', _) :: rest, r :: rs =>
      if String.eqb ip' ip then r :: verdicts_of ip rest rs
      else verdicts_of ip rest rs
  | _, _ => []
  end.

(** A handler that has not started belongs to [ip]. *)
Definition pending_for (ip : string) (t : task) : Prop :=
  match t with
  | Pending client_ip _ => client_ip = ip
  | _ => True
  end.

(** Instants that lie less than [WINDOW_SECONDS] after one another,
    whichever comes first. *)
Definition near (times : list Z) : Prop :=
  Forall (λ n1, Forall (λ n2, n2 - n1 < WINDOW_SECONDS) times) times.

End Runs.

(** ** Sample data *)

Module Examples.
Import Handler.

Definition submission : AnswerRequest :=
  {| question := "What is a list?"; answer := "A tree"; mode := "mentor" |}.

End Examples.

Section LimiterFacts.
Import StoreMonad Limiter Spec.

Implicit Types (st : store) (ip : string) (now t : Z) (w : list Z).

Lemma compact_retain now w : compact now w = retain now w.
Proof.
  unfold compact. induction w as [|t w IH]; [done|].
  cbn [retain]. rewrite filter_cons, IH. unfold WINDOW_SECONDS.
  case_decide; destruct (Z.ltb_spec (now - t) 3600); try lia; done.
Qed.

Lemma elem_of_compact now w t :
  t ∈ compact now w ↔ t ∈ w ∧ now - t < WINDOW_SECONDS.
Proof. unfold compact. rewrite list_elem_of_filter. tauto. Qed.

Lemma compact_idemp now w : compact now (compact now w) = compact now w.
Proof.
  unfold compact. induction w as [|t w IH]; [done|].
  rewrite filter_cons. case_decide; [|done].
  rewrite filter_cons. case_decide; [|done]. by rewrite IH.
Qed.

(** The closed form of [is_rate_limited]. *)
Lemma is_rate_limited_unfold now ip st :
  is_rate_limited now ip st =
    let w := compact now (window st ip) in
    if (RATE_LIMIT <=? length w)%nat
    then (true, <[ip := w]> st)
    else (false, <[ip := w ++ [now]]> st).
Proof.
  unfold is_rate_limited, dd_append, mbind, mret, M_bind, M_ret, bind, ret,
    dd_getitem, dd_setitem, window.
  destruct (st !! ip) as [w0|] eqn:Hw; cbn [default from_option id].
  - rewrite lookup_insert_eq.
    destruct (RATE_LIMIT <=? length (compact now w0))%nat; [done|].
    by rewrite lookup_insert_eq, insert_insert_eq.
  - rewrite insert_insert_eq, lookup_insert_eq.
    change (compact now []) with (@nil Z).
    change (RATE_LIMIT <=? length (@nil Z))%nat with false. cbv beta iota.
    by rewrite lookup_insert_eq, insert_insert_eq.
Qed.

Lemma is_rate_limited_verdict now ip st :
  (is_rate_limited now ip st).1 =
    (RATE_LIMIT <=? length (compact now (window st ip)))%nat.
Proof.
  rewrite is_rate_limited_unfold. cbv zeta.
  by destruct (RATE_LIMIT <=? length (compact now (window st ip)))%nat.
Qed.

Lemma is_rate_limited_other now ip ip' st :
  ip ≠ ip' → (is_rate_limited now ip st).2 !! ip' = st !! ip'.
Proof.
  intros Hne. rewrite is_rate_limited_unfold. cbv zeta.
  destruct (RATE_LIMIT <=? length (compact now (window st ip)))%nat;
    cbn [snd]; by rewrite lookup_insert_ne.
Qed.

(** The window of the caller after the call: the compacted window when
    the call is limited, the single instant [now] when it is recorded. *)
Lemma is_rate_limited_window now ip st :
  window (is_rate_limited now ip st).2 ip =
    if (is_rate_limited now ip st).1 then compact now (window st ip)
    else [now].
Proof.
  rewrite is_rate_limited_unfold. cbv zeta. unfold RATE_LIMIT.
  destruct (compact now (window st ip)) as [|t w] eqn:Hc;
    cbn [length Nat.leb fst snd]; unfold window;
    by rewrite lookup_insert_eq.
Qed.

Lemma is_rate_limited_entry now ip st :
  (is_rate_limited now ip st).2 !! ip =
    Some (window (is_rate_limited now ip st).2 ip).
Proof.
  unfold window at 1. rewrite is_rate_limited_unfold. cbv zeta.
  destruct (RATE_LIMIT <=? length (compact now (window st ip)))%nat;
    cbn [snd]; by rewrite lookup_insert_eq.
Qed.

End LimiterFacts.

(** ** The contract of the limiter *)

Section LimiterContract.
Import StoreMonad Limiter Spec.

Implicit Types (st : store) (ip : string) (now t : Z) (w : list Z).

(** C1.  A call of [is_rate_limited] for [ip] at [now] first compacts the
    stored window of [ip] to exactly its timestamps [t] with
    [now - t < WINDOW_SECONDS], in their order; when the compacted window
    has at least [RATE_LIMIT] entries the call answers limited (Denied)
    and stores the compacted window without [now], otherwise it stores the
    compacted window extended by [now] and answers not limited (Admitted).
    This is the [CheckAndRecord] of the specification. *)
Theorem is_rate_limited_check_and_record now ip st :
  let w := compact now (window st ip) in
  (∀ t, t ∈ w ↔ t ∈ window st ip ∧ now - t < WINDOW_SECONDS) ∧
  w `sublist_of` window st ip ∧
  is_rate_limited now ip st =
    (if (RATE_LIMIT <=? length w)%nat
     then (true, <[ip := w]> st)
     else (false, <[ip := w ++ [now]]> st)) ∧
  prod_map verdict_of_bool id (is_rate_limited now ip st) =
    CheckAndRecord ip now st.
Proof.
  cbv zeta. split; [apply elem_of_compact|].
  split; [apply sublist_filter|].
  split; [apply is_rate_limited_unfold|].
  rewrite is_rate_limited_unfold. cbv zeta.
  unfold CheckAndRecord. rewrite <- compact_retain. unfold RATE_LIMIT.
  by destruct (1 <=? length (compact now (window st ip)))%nat.
Qed.

Lemma compact_Forall now w : Forall (λ t, now - t < WINDOW_SECONDS) (compact now w).
Proof. apply Forall_forall. intros t Ht. by apply elem_of_compact in Ht as [_ ?]. Qed.

Lemma compact_length now w : (length (compact now w) ≤ length w)%nat.
Proof. apply length_filter. Qed.

(** One call keeps every entry of the store well formed. *)
Lemma is_rate_limited_window_ok now ip st (last : string → option Z) :
  (∀ ip', window_ok (last ip') (st !! ip')) →
  ∀ ip', window_ok (if decide (ip = ip') then Some now else last ip')
           ((is_rate_limited now ip st).2 !! ip').
Proof.
  intros Hst ip'. case_decide as Hip.
  - subst ip'. rewrite is_rate_limited_entry, is_rate_limited_window.
    eexists; split; [done|].
    destruct (is_rate_limited now ip st).1.
    + split; [apply compact_Forall|].
      etrans; [apply compact_length|].
      specialize (Hst ip). unfold window.
      destruct (last ip); cbn in Hst.
      * destruct Hst as (w & -> & _ & Hlen). done.
      * rewrite Hst. cbn. unfold RATE_LIMIT. lia.
    + split; [|done]. apply Forall_singleton. unfold WINDOW_SECONDS. lia.
  - rewrite is_rate_limited_other by done. apply Hst.
Qed.

Lemma run_calls_window_ok calls st (last : string → option Z) :
  (∀ ip, window_ok (last ip) (st !! ip)) →
  ∀ ip, window_ok (match last_access calls ip with
                   | Some n => Some n
                   | None => last ip
                   end) ((run_calls calls st).2 !! ip).
Proof.
  revert st last. induction calls as [|[ip0 now] calls IH]; intros st last Hst ip.
  - apply Hst.
  - cbn [run_calls last_access].
    destruct (is_rate_limited now ip0 st) as [r st'] eqn:Hcall.
    destruct (run_calls calls st') as [rs st''] eqn:Hrun. cbn [snd].
    pose proof (is_rate_limited_window_ok now ip0 st last Hst) as Hst'.
    rewrite Hcall in Hst'. cbn [snd] in Hst'.
    specialize (IH st' _ Hst' ip). rewrite Hrun in IH. cbn [snd] in IH.
    destruct (last_access calls ip); [done|].
    case_decide as Hip.
    + subst ip0. by rewrite String.eqb_refl.
    + destruct (String.eqb_spec ip0 ip); [done|]. done.
Qed.

(** C5.  In every store the limiter can reach from the empty store of
    process start, the entry of an identity is absent until its first call
    and afterwards holds at most [RATE_LIMIT] timestamps, each less than
    [WINDOW_SECONDS] before the instant of that identity's last call.  In
    particular, after a call for [ip] at [now] the window of [ip] holds
    only timestamps [t] with [now - t < WINDOW_SECONDS] and at most
    [RATE_LIMIT] of them, and the call touches no other entry: windows are
    compacted when their identity calls, and at no other moment. *)
Theorem window_invariant calls ip now :
  let st := (run_calls calls ∅).2 in
  let st' := (is_rate_limited now ip st).2 in
  (Forall (λ t, now - t < WINDOW_SECONDS) (window st' ip) ∧
   (length (window st' ip) ≤ RATE_LIMIT)%nat) ∧
  (∀ ip', window_ok (last_access calls ip') (st !! ip')) ∧
  (∀ ip', ip' ≠ ip → st' !! ip' = st !! ip').
Proof.
  cbv zeta.
  assert (Hreach : ∀ ip', window_ok (last_access calls ip')
                            ((run_calls calls ∅).2 !! ip')).
  { intros ip'.
    pose proof (run_calls_window_ok calls ∅ (λ _, None)) as H.
    specialize (H (λ i, lookup_empty i) ip').
    by destruct (last_access calls ip'). }
  split; [|split; [done|]].
  - pose proof (is_rate_limited_window_ok now ip _ _ Hreach ip) as H.
    rewrite decide_True in H by done.
    destruct H as (w & Hw & HF & Hlen).
    unfold window. by rewrite Hw.
  - intros ip' Hne. by apply is_rate_limited_other.
Qed.

(** C6.  For distinct identities [X] and [Y], a call for [X] leaves the
    entry of [Y] as it was; the verdict of a call for [Y] is the same in
    any two stores that hold the same window for [Y], and so is the window
    it leaves; hence it is the same before and after the call for [X]. *)
Theorem identities_independent (X Y : string) now st :
  X ≠ Y →
  let st' := (is_rate_limited now X st).2 in
  st' !! Y = st !! Y ∧
  (∀ now' st1 st2,
     window st1 Y = window st2 Y →
     (is_rate_limited now' Y st1).1 = (is_rate_limited now' Y st2).1 ∧
     window (is_rate_limited now' Y st1).2 Y =
       window (is_rate_limited now' Y st2).2 Y) ∧
  (∀ now', (is_rate_limited now' Y st').1 = (is_rate_limited now' Y st).1).
Proof.
  intros Hne. cbv zeta.
  assert (Hframe : (is_rate_limited now X st).2 !! Y = st !! Y)
    by by apply is_rate_limited_other.
  split; [done|]. split.
  - intros now' st1 st2 Hw.
    rewrite !is_rate_limited_window, !is_rate_limited_verdict.
    by rewrite Hw.
  - intros now'. rewrite !is_rate_limited_verdict. unfold window.
    by rewrite Hframe.
Qed.

Lemma identities_independent_witness :
  let st : store := {[ "10.0.0.1" := [100] ]} in
  "10.0.0.1" ≠ "10.0.0.2" ∧
  (is_rate_limited 200 "10.0.0.1" st).2 !! "10.0.0.2" = st !! "10.0.0.2".
Proof.
  cbv zeta. assert (H : "10.0.0.1" ≠ "10.0.0.2") by done.
  split; [exact H|].
  exact (proj1 (identities_independent "10.0.0.1" "10.0.0.2" 200
                  {[ "10.0.0.1" := [100] ]} H)).
Defined.

(** A limited call leaves the value of a reachable store as it was: a
    window of at most [RATE_LIMIT] timestamps that still counts as full
    has lost nothing to compaction. *)
Lemma limited_call_keeps_short_window now ip st w :
  st !! ip = Some w → (length w ≤ RATE_LIMIT)%nat →
  (is_rate_limited now ip st).1 = true →
  (is_rate_limited now ip st).2 = st.
Proof.
  intros Hw Hlen Hlim.
  rewrite is_rate_limited_verdict in Hlim.
  rewrite is_rate_limited_unfold. cbv zeta. rewrite Hlim. cbn [snd].
  unfold window in *. rewrite Hw in *. cbn [default from_option id] in *.
  apply insert_id. rewrite Hw. f_equal.
  unfold RATE_LIMIT in *. unfold compact in *.
  destruct w as [|t [|t' w]]; cbn in Hlen; try lia.
  - done.
  - rewrite filter_cons in *. case_decide; [done|]. done.
Qed.

(** C10.  A call for an identity whose window is absent, or compacts to
    the empty window at [now], is not limited (Admitted) and leaves the
    window [[now]]; a limited (Denied) call still writes the store: it
    replaces the entry of the identity by the compacted window; and
    subscripting the store with an identity it does not hold inserts the
    empty window for it. *)
Theorem unseen_identity_admitted now ip st :
  (compact now (window st ip) = [] →
     is_rate_limited now ip st = (false, <[ip := [now]]> st)) ∧
  (st !! ip = None →
     is_rate_limited now ip st = (false, <[ip := [now]]> st)) ∧
  ((is_rate_limited now ip st).1 = true →
     (is_rate_limited now ip st).2 = <[ip := compact now (window st ip)]> st ∧
     (is_rate_limited now ip st).2 !! ip = Some (compact now (window st ip))) ∧
  (st !! ip = None →
     dd_getitem ip st = ([], <[ip := []]> st) ∧
     (dd_getitem ip st).2 !! ip = Some [] ∧
     size (dd_getitem ip st).2 = S (size st)).
Proof.
  assert (Hempty : compact now (window st ip) = [] →
            is_rate_limited now ip st = (false, <[ip := [now]]> st)).
  { intros Hc. rewrite is_rate_limited_unfold. cbv zeta. by rewrite Hc. }
  split; [done|]. split.
  { intros Hnone. apply Hempty. unfold window. by rewrite Hnone. }
  split.
  - intros Hlim. rewrite is_rate_limited_verdict in Hlim.
    rewrite is_rate_limited_unfold. cbv zeta. rewrite Hlim. cbn [snd].
    split; [done|]. by rewrite lookup_insert_eq.
  - intros Hnone. unfold dd_getitem. rewrite Hnone. cbn [snd].
    split; [done|]. split; [by rewrite lookup_insert_eq|].
    by apply map_size_insert_None.
Qed.

Lemma unseen_identity_admitted_witness :
  is_rate_limited 100 "10.0.0.1" ∅ = (false, {[ "10.0.0.1" := [100] ]}) ∧
  (dd_getitem "10.0.0.1" (∅ : store)).2 !! "10.0.0.1" = Some [] ∧
  (is_rate_limited 200 "10.0.0.1" {[ "10.0.0.1" := [100] ]}).2 !! "10.0.0.1"
    = Some [100].
Proof.
  pose proof (unseen_identity_admitted 100 "10.0.0.1" ∅) as (_ & H1 & _ & H2).
  pose proof (unseen_identity_admitted 200 "10.0.0.1" {[ "10.0.0.1" := [100] ]})
    as (_ & _ & H3 & _).
  split; [|split].
  - rewrite (H1 eq_refl). by rewrite insert_empty.
  - exact (proj1 (proj2 (H2 eq_refl))).
  - exact (proj2 (H3 eq_refl)).
Defined.

(** The four statements in a row are [is_rate_limited]. *)
Lemma statements_is_rate_limited now ip st :
  statements 4 now ip AtLookup st =
    (Returned (is_rate_limited now ip st).1, (is_rate_limited now ip st).2).
Proof.
  unfold is_rate_limited, statements, statement, dd_append,
    mbind, mret, M_bind, M_ret, bind, ret, dd_getitem, dd_setitem.
  destruct (st !! ip) as [w0|] eqn:Hw.
  - rewrite lookup_insert_eq.
    destruct (RATE_LIMIT <=? length (compact now w0))%nat; [done|].
    by rewrite lookup_insert_eq.
  - rewrite lookup_insert_eq.
    change (RATE_LIMIT <=? length (compact now []))%nat with false.
    cbv beta iota. by rewrite lookup_insert_eq.
Qed.

(** Were the statements of two callers interleaved, as they are not on the
    event loop, both callers of a fresh identity could pass the test before
    either appends, and both would be recorded. *)
Remark interleaved_statements_record_both :
  interleave [true; true; true; false; false; false; true; false]
    100 100 "10.0.0.1" (AtLookup, AtLookup) ∅ =
    ((Returned false, Returned false), {[ "10.0.0.1" := [100; 100] ]}).
Proof. by vm_compute. Qed.

(** *** Runs of one identity *)

Lemma compact_singleton_keep now a :
  now - a < WINDOW_SECONDS → compact now [a] = [a].
Proof. intros H. unfold compact. rewrite filter_cons. by rewrite decide_True. Qed.

Lemma run_identity_cons ip now rest st :
  run_identity ip (now :: rest) st =
    ((now, (is_rate_limited now ip st).1)
       :: (run_identity ip rest (is_rate_limited now ip st).2).1,
     (run_identity ip rest (is_rate_limited now ip st).2).2).
Proof.
  cbn [run_identity]. destruct (is_rate_limited now ip st) as [r st'].
  cbn [fst snd]. by destruct (run_identity ip rest st').
Qed.

Lemma run_identity_times ip times st t r :
  (t, r) ∈ (run_identity ip times st).1 → t ∈ times.
Proof.
  revert st. induction times as [|now rest IH]; intros st.
  - cbn. by intros ?%elem_of_nil.
  - rewrite run_identity_cons. cbn [fst].
    intros [Heq|Hin]%elem_of_cons.
    + injection Heq as -> _. left.
    + right. by eapply IH.
Qed.

(** The verdict of an instant is unique when the instants are distinct. *)
Lemma run_identity_functional ip times st t r r' :
  increasing times →
  (t, r) ∈ (run_identity ip times st).1 →
  (t, r') ∈ (run_identity ip times st).1 → r = r'.
Proof.
  revert st. induction times as [|now rest IH]; intros st Hinc.
  - cbn. by intros ?%elem_of_nil.
  - destruct Hinc as [Hlt Hinc]. rewrite run_identity_cons. cbn [fst].
    intros [Heq|Hin]%elem_of_cons [Heq'|Hin']%elem_of_cons.
    + congruence.
    + injection Heq as -> _. apply run_identity_times in Hin'.
      rewrite Forall_forall in Hlt. specialize (Hlt _ Hin'). lia.
    + injection Heq' as -> _. apply run_identity_times in Hin.
      rewrite Forall_forall in Hlt. specialize (Hlt _ Hin). lia.
    + by eapply IH.
Qed.

(** While the instant [a] is in the window, later calls less than
    [WINDOW_SECONDS] after it are limited. *)
Lemma run_identity_after_admit ip times st a :
  window st ip = [a] → Forall (λ u, a < u) times → increasing times →
  ∀ t r, (t, r) ∈ (run_identity ip times st).1 →
         t < a + WINDOW_SECONDS → r = true.
Proof.
  revert st. induction times as [|now rest IH]; intros st Hw Hafter Hinc t r.
  - cbn. by intros ?%elem_of_nil.
  - destruct Hinc as [Hlt Hinc]. rewrite run_identity_cons. cbn [fst].
    apply Forall_cons in Hafter as [Hnow Hafter].
    intros [Heq|Hin]%elem_of_cons Ht.
    + injection Heq as -> ->. rewrite is_rate_limited_verdict, Hw.
      rewrite compact_singleton_keep by lia. done.
    + assert (now < t).
      { apply run_identity_times in Hin. rewrite Forall_forall in Hlt. auto. }
      eapply (IH (is_rate_limited now ip st).2); [|done|done|exact Hin|done].
      rewrite is_rate_limited_window, is_rate_limited_verdict, Hw.
      rewrite compact_singleton_keep by lia. done.
Qed.

Lemma run_identity_one_per_span ip times st a t r :
  increasing times →
  (a, false) ∈ (run_identity ip times st).1 →
  (t, r) ∈ (run_identity ip times st).1 →
  a ≤ t < a + WINDOW_SECONDS → t ≠ a → r = true.
Proof.
  revert st. induction times as [|now rest IH]; intros st Hinc.
  - cbn. by intros ?%elem_of_nil.
  - destruct Hinc as [Hlt Hinc]. rewrite run_identity_cons. cbn [fst].
    intros [Heq|Hin]%elem_of_cons [Heq'|Hin']%elem_of_cons Hspan Hne.
    + congruence.
    + injection Heq as -> Hadm.
      eapply (run_identity_after_admit ip rest); [|exact Hlt|done|exact Hin'|lia].
      by rewrite is_rate_limited_window, <- Hadm.
    + injection Heq' as -> _. apply run_identity_times in Hin.
      rewrite Forall_forall in Hlt. specialize (Hlt _ Hin). lia.
    + by eapply IH.
Qed.

(** The window at the end of a run holds only what it held at the start
    and the instants the run recorded. *)
Lemma run_identity_final_window ip times st b :
  b ∈ window (run_identity ip times st).2 ip →
  b ∈ window st ip ∨ (b, false) ∈ (run_identity ip times st).1.
Proof.
  revert st. induction times as [|now rest IH]; intros st.
  - cbn. by left.
  - rewrite run_identity_cons. cbn [fst snd]. intros Hb.
    apply IH in Hb as [Hb|Hb]; [|right; by right].
    rewrite is_rate_limited_window in Hb.
    destruct (is_rate_limited now ip st).1 eqn:Hr.
    + left. by apply elem_of_compact in Hb as [? _].
    + right. apply list_elem_of_singleton in Hb as ->. left.
Qed.

(** C2.  Calls of one identity at strictly increasing instants, starting
    from an empty window: the first call is recorded (Admitted); for every
    recorded instant [a], the call at [a] is the only one of the calls at
    instants in [[a, a + WINDOW_SECONDS)] that is recorded, and all the
    others there are limited (Denied); and when [t0] is the only recorded
    instant of the run, a following call at [t0 + 3601] is recorded. *)
Theorem one_admission_per_window ip times st :
  window st ip = [] → increasing times →
  let trace := (run_identity ip times st).1 in
  let st' := (run_identity ip times st).2 in
  (∀ t0 rest, times = t0 :: rest → trace !! 0%nat = Some (t0, false)) ∧
  (∀ a, (a, false) ∈ trace →
     ∀ t r, (t, r) ∈ trace → a ≤ t < a + WINDOW_SECONDS →
            (t = a ∧ r = false) ∨ (t ≠ a ∧ r = true)) ∧
  (∀ t0, (∀ t, (t, false) ∈ trace → t = t0) →
         (is_rate_limited (t0 + 3601) ip st').1 = false).
Proof.
  intros Hw Hinc. cbv zeta. split; [|split].
  - intros t0 rest ->. rewrite run_identity_cons. cbn [fst lookup list_lookup].
    rewrite is_rate_limited_verdict, Hw. done.
  - intros a Ha t r Ht Hspan.
    destruct (decide (t = a)) as [->|Hne].
    + left. split; [done|]. by eapply run_identity_functional.
    + right. split; [done|]. by eapply run_identity_one_per_span.
  - intros t0 Hsole. rewrite is_rate_limited_verdict.
    assert (Hc : compact (t0 + 3601)
                   (window (run_identity ip times st).2 ip) = []).
    { apply elem_of_nil_inv. intros b Hb.
      apply elem_of_compact in Hb as [Hb Hfresh].
      apply run_identity_final_window in Hb as [Hb|Hb].
      - rewrite Hw in Hb. by apply elem_of_nil in Hb.
      - apply Hsole in Hb as ->. unfold WINDOW_SECONDS in Hfresh. lia. }
    by rewrite Hc.
Qed.

Lemma one_admission_per_window_witness :
  (run_identity "10.0.0.1" [100; 200; 3699; 3700; 3701; 7301] ∅).1 =
    [(100, false); (200, true); (3699, true);
     (3700, false); (3701, true); (7301, false)] ∧
  (∀ t r, (t, r) ∈ (run_identity "10.0.0.1" [100; 200; 3699; 3700; 3701; 7301] ∅).1 →
          100 ≤ t < 100 + WINDOW_SECONDS →
          (t = 100 ∧ r = false) ∨ (t ≠ 100 ∧ r = true)).
Proof.
  split; [by vm_compute|].
  assert (Hw : window (∅ : store) "10.0.0.1" = []) by reflexivity.
  assert (Hinc : increasing [100; 200; 3699; 3700; 3701; 7301]).
  { cbn. repeat split; repeat constructor; lia. }
  pose proof (one_admission_per_window "10.0.0.1"
                [100; 200; 3699; 3700; 3701; 7301] ∅ Hw Hinc) as (_ & H & _).
  apply H. vm_compute. left.
Defined.

End LimiterContract.

(** ** The prompt *)

Section PromptContract.
Import Text Prompt.

Lemma starts_with_app needle s : starts_with needle (needle +:+ s) = true.
Proof.
  induction needle as [|c n IH]; [reflexivity|].
  change (String c n +:+ s) with (String c (n +:+ s)). cbn [starts_with].
  by rewrite Ascii.eqb_refl, IH.
Qed.

Lemma contains_app_l s1 s2 : contains (s1 +:+ s2) s1 = true.
Proof.
  pose proof (starts_with_app s1 s2) as H.
  destruct (s1 +:+ s2); cbn [contains]; by rewrite H.
Qed.

Lemma append_empty_r s : s +:+ "" = s.
Proof.
  induction s as [|c s IH]; [done|].
  change (String c s +:+ "") with (String c (s +:+ "")). by rewrite IH.
Qed.

Lemma contains_refl s : contains s s = true.
Proof.
  pose proof (contains_app_l s "") as H. by rewrite append_empty_r in H.
Qed.

Lemma contains_app_r s1 s2 needle :
  contains s2 needle = true → contains (s1 +:+ s2) needle = true.
Proof.
  intros H. induction s1 as [|c s1 IH]; [done|].
  change (String c s1 +:+ s2) with (String c (s1 +:+ s2)).
  cbn [contains]. rewrite IH. apply orb_true_r.
Qed.

(** C9.  [generate_prompt] is a function of its three arguments: the
    fixed template filled with the question, the answer and a tone
    instruction, which is the harsh one when the mode is ["drill"] and the
    encouraging one for every other mode; the result contains the
    question, the answer and the selected instruction. *)
Theorem generate_prompt_tone (question answer mode : string) :
  let tone := if decide (mode = "drill") then harsh_tone else kind_tone in
  generate_prompt question answer mode =
    "You are an AI coding instructor." +:+ nl +:+ nl +:+
    "Question: " +:+ question +:+ nl +:+
    "Student's Answer: " +:+ answer +:+ nl +:+ nl +:+ tone ∧
  contains (generate_prompt question answer mode) tone = true ∧
  contains (generate_prompt question answer mode) question = true ∧
  contains (generate_prompt question answer mode) answer = true ∧
  harsh_tone =
    "Respond harshly and sarcastically, but still provide the correct answer." ∧
  kind_tone =
    "Respond kindly and encouragingly, offering constructive feedback.".
Proof.
  cbv zeta.
  assert (Htone : (if String.eqb mode "drill" then harsh_tone else kind_tone)
                  = if decide (mode = "drill") then harsh_tone else kind_tone).
  { destruct (String.eqb_spec mode "drill"); by case_decide. }
  unfold generate_prompt. rewrite Htone.
  split; [done|]. split; [|split; [|split; [|done]]].
  - do 10 apply contains_app_r. apply contains_refl.
  - do 4 apply contains_app_r. apply contains_app_l.
  - do 7 apply contains_app_r. apply contains_app_l.
Qed.

Lemma generate_prompt_tone_witness :
  contains (generate_prompt "What is a list?" "A tree" "drill") harsh_tone = true ∧
  contains (generate_prompt "What is a list?" "A tree" "mentor") kind_tone = true ∧
  contains (generate_prompt "What is a list?" "A tree" "anything-else") kind_tone
    = true.
Proof.
  split; [|split].
  - exact (proj1 (proj2 (generate_prompt_tone "What is a list?" "A tree" "drill"))).
  - exact (proj1 (proj2 (generate_prompt_tone "What is a list?" "A tree" "mentor"))).
  - exact (proj1 (proj2 (generate_prompt_tone "What is a list?" "A tree"
                           "anything-else"))).
Defined.

End PromptContract.

(** ** The request handler *)

Section HandlerContract.
Import StoreMonad Text Json Prompt Limiter Handler.

Variable OPENAI_API_KEY : option string.

Implicit Types (st : store) (now : Z) (payload : AnswerRequest)
  (gateway : request → upstream) (u : upstream).

Lemma gateway_calls_app (l1 l2 : list event) :
  gateway_calls (l1 ++ l2) = (gateway_calls l1 + gateway_calls l2)%nat.
Proof. unfold gateway_calls. by rewrite List.filter_app, length_app. Qed.

(** The limited branch of the handler. *)
Lemma grade_answer_begin_limited now client_ip payload st :
  (is_rate_limited now client_ip st).1 = true →
  grade_answer_begin OPENAI_API_KEY now client_ip payload st =
    ((inl (JSONResponse 429 (JObj [("detail", JStr quota_message)])),
      [LogInfoIncoming payload; LogWarningRateLimit client_ip]),
     (is_rate_limited now client_ip st).2).
Proof.
  intros H. unfold grade_answer_begin, mbind, M_bind, bind.
  destruct (is_rate_limited now client_ip st) as [r st']. cbn in H. by subst r.
Qed.

(** The branch that sends the request. *)
Lemma grade_answer_begin_admitted now client_ip payload st :
  (is_rate_limited now client_ip st).1 = false →
  ∃ url headers data,
    grade_answer_begin OPENAI_API_KEY now client_ip payload st =
      ((inr (url, headers, data),
        [LogInfoIncoming payload; Post url headers data]),
       (is_rate_limited now client_ip st).2).
Proof.
  intros H. unfold grade_answer_begin, mbind, M_bind, bind.
  destruct (is_rate_limited now client_ip st) as [r st']. cbn in H. subst r.
  by eexists _, _, _.
Qed.

(** After the awaited call the handler sends nothing more, and it does
    not end with a [JSONResponse]. *)
Lemma grade_answer_resume_quiet u :
  gateway_calls (grade_answer_resume u).2 = 0%nat ∧
  ∀ status_code content,
    (grade_answer_resume u).1 ≠ JSONResponse status_code content.
Proof.
  unfold grade_answer_resume, internal_error.
  destruct u as [| | |result]; try by split.
  destruct (reply_of result) as [reply|]; [|by split].
  destruct (slice_100 reply); by split.
Qed.

(** The handler never touches the store after the limiter's call. *)
Lemma grade_answer_store gateway now client_ip payload st :
  (grade_answer OPENAI_API_KEY gateway now client_ip payload st).2 =
    (is_rate_limited now client_ip st).2.
Proof.
  unfold grade_answer, mbind, M_bind, bind.
  destruct (is_rate_limited now client_ip st).1 eqn:Hr.
  - by rewrite grade_answer_begin_limited.
  - destruct (grade_answer_begin_admitted now client_ip payload st Hr)
      as (url & headers & data & ->).
    by destruct (grade_answer_resume (gateway (url, headers, data))).
Qed.

(** C4.  When the limiter answers limited (Denied), the handler ends with
    the response of status 429 whose body is the object with the one field
    [detail] holding the literal message; it sends no outbound request,
    whatever the gateway is; and it logs the denial as a warning. *)
Theorem denied_short_circuits gateway now client_ip payload st :
  (is_rate_limited now client_ip st).1 = true →
  let out := grade_answer OPENAI_API_KEY gateway now client_ip payload st in
  http_response out.1.1 =
    (429, JObj [("detail", JStr "Sorry, you reached the limit. You can only submit 3 times per hour. OpenAI isn't cheap.")]) ∧
  gateway_calls out.1.2 = 0%nat ∧
  out.1.2 = [LogInfoIncoming payload; LogWarningRateLimit client_ip] ∧
  (∀ gateway',
     grade_answer OPENAI_API_KEY gateway' now client_ip payload st = out).
Proof.
  intros Hlim. cbv zeta.
  assert (Hout : ∀ g, grade_answer OPENAI_API_KEY g now client_ip payload st =
            ((JSONResponse 429 (JObj [("detail", JStr quota_message)]),
              [LogInfoIncoming payload; LogWarningRateLimit client_ip]),
             (is_rate_limited now client_ip st).2)).
  { intros g. unfold grade_answer, mbind, M_bind, bind.
    by rewrite grade_answer_begin_limited. }
  rewrite (Hout gateway). cbn [fst snd http_response].
  split; [done|]. split; [done|]. split; [done|]. apply Hout.
Qed.

(** C7.  A submission that the limiter records at [t] stays charged: the
    handler leaves [t] in the window of the identity whatever the gateway
    delivers, so a second submission of that identity at any [t'] with
    [t' - t < WINDOW_SECONDS] is limited and ends with status 429. *)
Theorem quota_charged_at_admission gateway gateway' t t' client_ip
    payload payload' st :
  (is_rate_limited t client_ip st).1 = false →
  t' - t < WINDOW_SECONDS →
  let st1 := (grade_answer OPENAI_API_KEY gateway t client_ip payload st).2 in
  let out := grade_answer OPENAI_API_KEY gateway' t' client_ip payload' st1 in
  window st1 client_ip = [t] ∧
  (is_rate_limited t' client_ip st1).1 = true ∧
  (http_response out.1.1).1 = 429 ∧
  gateway_calls out.1.2 = 0%nat.
Proof.
  intros Hadm Hspan. cbv zeta.
  rewrite grade_answer_store.
  assert (Hw : window (is_rate_limited t client_ip st).2 client_ip = [t])
    by by rewrite is_rate_limited_window, Hadm.
  assert (Hlim : (is_rate_limited t' client_ip
                    (is_rate_limited t client_ip st).2).1 = true).
  { rewrite is_rate_limited_verdict, Hw.
    by rewrite compact_singleton_keep. }
  split; [done|]. split; [done|].
  unfold grade_answer, mbind, M_bind, bind.
  by rewrite grade_answer_begin_limited.
Qed.

(** C8.  When [raise_for_status] raises, the handler ends with status 500
    and the detail ["Error from OpenAI API."].  Nothing of what the upstream
    sent reaches the caller: the response is one and the same for every
    upstream status and text, which go to the error log only; it does not
    hold ["secret-internal-text"], nor any text that the fixed body does
    not hold by itself. *)
Theorem upstream_error_response_fixed gateway now client_ip payload st
    status_code text :
  (is_rate_limited now client_ip st).1 = false →
  (∀ req, gateway req = StatusError status_code text) →
  let out := grade_answer OPENAI_API_KEY gateway now client_ip payload st in
  out.1.1 = HTTPException 500 "Error from OpenAI API." ∧
  http_response out.1.1 =
    (500, JObj [("detail", JStr "Error from OpenAI API.")]) ∧
  (∀ gateway' status_code' text',
     (∀ req, gateway' req = StatusError status_code' text') →
     (grade_answer OPENAI_API_KEY gateway' now client_ip payload st).1.1
       = out.1.1) ∧
  LogErrorUpstream status_code text ∈ out.1.2 ∧
  contains (render (http_response out.1.1).2) "secret-internal-text" = false ∧
  (∀ needle,
     contains (render (JObj [("detail", JStr "Error from OpenAI API.")])) needle
       = false →
     contains (render (http_response out.1.1).2) needle = false).
Proof.
  intros Hadm Hgw. cbv zeta.
  assert (Hfixed : ∀ g s t, (∀ req, g req = StatusError s t) →
            ∃ url headers data,
              (grade_answer OPENAI_API_KEY g now client_ip payload st).1 =
                (HTTPException 500 "Error from OpenAI API.",
                 [LogInfoIncoming payload; Post url headers data]
                   ++ [LogErrorUpstream s t])).
  { intros g s t Hg. unfold grade_answer, mbind, M_bind, bind.
    destruct (grade_answer_begin_admitted now client_ip payload st Hadm)
      as (url & headers & data & ->).
    rewrite Hg. cbn [grade_answer_resume fst snd mret M_ret ret].
    by exists url, headers, data. }
  destruct (Hfixed gateway status_code text Hgw) as (url & headers & data & ->).
  cbn [fst snd http_response].
  split; [done|]. split; [done|]. split.
  { intros g s t Hg. by destruct (Hfixed g s t Hg) as (? & ? & ? & ->). }
  split.
  { apply elem_of_app. right. left. }
  split; [by vm_compute|done].
Qed.

End HandlerContract.

Section HandlerExamples.
Import Text Json Limiter Handler Examples.

Lemma denied_short_circuits_witness :
  let st : store := {[ "10.0.0.1" := [100] ]} in
  (is_rate_limited 200 "10.0.0.1" st).1 = true ∧
  gateway_calls
    (grade_answer None (λ _, Parsed JNull) 200 "10.0.0.1" submission st).1.2
    = 0%nat.
Proof.
  cbv zeta.
  assert (H : (is_rate_limited 200 "10.0.0.1" {[ "10.0.0.1" := [100] ]}).1 = true)
    by (vm_compute; reflexivity).
  split; [exact H|].
  exact (proj1 (proj2 (denied_short_circuits None (λ _, Parsed JNull) 200
                         "10.0.0.1" submission _ H))).
Defined.

Lemma quota_charged_at_admission_witness :
  (is_rate_limited 100 "10.0.0.1" ∅).1 = false ∧
  3699 - 100 < WINDOW_SECONDS ∧
  (is_rate_limited 3699 "10.0.0.1"
     (grade_answer None (λ _, PostRaises) 100 "10.0.0.1" submission ∅).2).1
    = true.
Proof.
  assert (H1 : (is_rate_limited 100 "10.0.0.1" ∅).1 = false)
    by (vm_compute; reflexivity).
  assert (H2 : 3699 - 100 < WINDOW_SECONDS) by (unfold WINDOW_SECONDS; lia).
  split; [exact H1|]. split; [exact H2|].
  exact (proj1 (proj2 (quota_charged_at_admission None (λ _, PostRaises)
                         (λ _, PostRaises) 100 3699 "10.0.0.1"
                         submission submission ∅ H1 H2))).
Defined.

Lemma upstream_error_response_fixed_witness :
  (is_rate_limited 100 "10.0.0.1" ∅).1 = false ∧
  (grade_answer None (λ _, StatusError 401 "secret-internal-text") 100
     "10.0.0.1" submission ∅).1.1
    = HTTPException 500 "Error from OpenAI API.".
Proof.
  assert (H1 : (is_rate_limited 100 "10.0.0.1" ∅).1 = false)
    by (vm_compute; reflexivity).
  split; [exact H1|].
  exact (proj1 (upstream_error_response_fixed None
                  (λ _, StatusError 401 "secret-internal-text") 100
                  "10.0.0.1" submission ∅ 401 "secret-internal-text"
                  H1 (λ _, eq_refl))).
Defined.

End HandlerExamples.

(** ** Two submissions of one identity in flight *)

Section EventLoopContract.
Import StoreMonad Json Limiter Handler EventLoop.

Variable OPENAI_API_KEY : option string.

Lemma step_Start_inv i now sys sys' :
  step OPENAI_API_KEY (Start i now) sys = Some sys' →
  ∃ ip p,
    tasks sys !! i = Some (Pending ip p) ∧
    rate_limit_store sys' = (is_rate_limited now ip (rate_limit_store sys)).2 ∧
    (((is_rate_limited now ip (rate_limit_store sys)).1 = true ∧
      tasks sys' =
        <[i := Finished (JSONResponse 429 (JObj [("detail", JStr quota_message)]))]>
          (tasks sys) ∧
      gateway_calls (log sys') = gateway_calls (log sys)) ∨
     ((is_rate_limited now ip (rate_limit_store sys)).1 = false ∧
      (∃ req, tasks sys' = <[i := Awaiting req]> (tasks sys)) ∧
      gateway_calls (log sys') = S (gateway_calls (log sys)))).
Proof.
  unfold step. destruct (tasks sys !! i) as [[ip p| |]|]; try discriminate.
  intros Hstep. exists ip, p. split; [done|].
  destruct (is_rate_limited now ip (rate_limit_store sys)).1 eqn:Hr.
  - rewrite grade_answer_begin_limited in Hstep by done.
    injection Hstep as <-. cbn [rate_limit_store tasks log]. split; [done|]. left.
    split; [done|]. split; [done|].
    rewrite gateway_calls_app. cbn. lia.
  - destruct (grade_answer_begin_admitted OPENAI_API_KEY now ip p _ Hr)
      as (url & headers & data & Hbegin).
    rewrite Hbegin in Hstep. injection Hstep as <-.
    cbn [rate_limit_store tasks log]. split; [done|]. right.
    split; [done|]. split; [by eexists|].
    rewrite gateway_calls_app. cbn. lia.
Qed.

Lemma step_Deliver_inv i u sys sys' :
  step OPENAI_API_KEY (Deliver i u) sys = Some sys' →
  ∃ req,
    tasks sys !! i = Some (Awaiting req) ∧
    rate_limit_store sys' = rate_limit_store sys ∧
    tasks sys' = <[i := Finished (grade_answer_resume u).1]> (tasks sys) ∧
    gateway_calls (log sys') = gateway_calls (log sys).
Proof.
  unfold step. destruct (tasks sys !! i) as [[| req |]|]; try discriminate.
  destruct (grade_answer_resume u) as [res events] eqn:Hres.
  intros [= <-]. exists req. cbn [rate_limit_store tasks log fst].
  split; [done|]. split; [done|]. split; [done|].
  rewrite gateway_calls_app.
  pose proof (grade_answer_resume_quiet u) as [Hq _].
  rewrite Hres in Hq. cbn [snd] in Hq. lia.
Qed.

Lemma admitted_resume u : admitted (Finished (grade_answer_resume u).1).
Proof. cbn. intros content. apply grade_answer_resume_quiet. Qed.

Lemma one_admitted_step c sys sys' :
  one_admitted sys → step OPENAI_API_KEY c sys = Some sys' → one_admitted sys'.
Proof.
  intros (t1 & t2 & Ht & Hcase & Hg) Hstep. destruct c as [i now|i u].
  - apply step_Start_inv in Hstep as (ip & p & Hi & _).
    rewrite Ht in Hi.
    destruct i as [|[|i]]; cbn in Hi; [| |done];
      injection Hi as ->; destruct Hcase as [[Ha Hd]|[Hd Ha]];
      done.
  - apply step_Deliver_inv in Hstep as (req & Hi & _ & Htasks & Hlog).
    rewrite Ht in Hi, Htasks.
    destruct i as [|[|i]]; cbn in Hi, Htasks; [| |done]; injection Hi as ->.
    + exists (Finished (grade_answer_resume u).1), t2.
      split; [done|]. split; [|lia].
      destruct Hcase as [[Ha Hd]|[Hd Ha]]; [|done].
      left. split; [apply admitted_resume|done].
    + exists t1, (Finished (grade_answer_resume u).1).
      split; [done|]. split; [|lia].
      destruct Hcase as [[Ha Hd]|[Hd Ha]]; [done|].
      right. split; [done|apply admitted_resume].
Qed.

Lemma one_admitted_run schedule sys sys' :
  one_admitted sys → run OPENAI_API_KEY schedule sys = Some sys' →
  one_admitted sys'.
Proof.
  revert sys. induction schedule as [|c rest IH]; intros sys Hsys.
  - cbn. by intros [= <-].
  - cbn [run]. destruct (step OPENAI_API_KEY c sys) as [sys1|] eqn:Hstep; [|done].
    apply IH. by eapply one_admitted_step.
Qed.

Lemma one_started_step ip n c sys sys' :
  one_started ip n sys →
  Forall (λ now, now - n < WINDOW_SECONDS) (start_times [c]) →
  step OPENAI_API_KEY c sys = Some sys' →
  one_started ip n sys' ∨ one_admitted sys'.
Proof.
  intros (t1 & t2 & Ht & Hcase & Hw & Hg) Hnow Hstep.
  destruct c as [i now|i u].
  - apply Forall_cons in Hnow as [Hnow _].
    apply step_Start_inv in Hstep as (ip' & p & Hi & Hst & Hverdict).
    rewrite Ht in Hi. right.
    assert (Hlim : (is_rate_limited now ip (rate_limit_store sys)).1 = true).
    { rewrite is_rate_limited_verdict, Hw.
      by rewrite compact_singleton_keep. }
    destruct i as [|[|i]]; cbn in Hi; [| |done]; injection Hi as ->;
      destruct Hcase as [[Ha [p' Hp]]|[[p' Hp] Ha]]; try done;
      injection Hp as -> ->;
      (destruct Hverdict as [(_ & Htasks & Hlog)|(Hadm & _)];
         [|congruence]);
      rewrite Ht in Htasks; cbn in Htasks.
    + eexists _, _. split; [done|]. split; [by right|lia].
    + eexists _, _. split; [done|]. split; [by left|lia].
  - apply step_Deliver_inv in Hstep as (req & Hi & Hst & Htasks & Hlog).
    rewrite Ht in Hi, Htasks. left.
    destruct i as [|[|i]]; cbn in Hi, Htasks; [| |done]; injection Hi as ->;
      destruct Hcase as [[Ha [p' Hp]]|[[p' Hp] Ha]]; try done.
    + eexists _, _. split; [done|]. rewrite Hst.
      split; [|split; [done|lia]].
      left. split; [apply admitted_resume|by eexists].
    + eexists _, _. split; [done|]. rewrite Hst.
      split; [|split; [done|lia]].
      right. split; [by eexists|apply admitted_resume].
Qed.

Lemma start_times_cons c rest :
  start_times (c :: rest) = start_times [c] ++ start_times rest.
Proof. by destruct c. Qed.

Lemma one_started_run ip n schedule sys sys' :
  one_started ip n sys →
  Forall (λ now, now - n < WINDOW_SECONDS) (start_times schedule) →
  run OPENAI_API_KEY schedule sys = Some sys' →
  Forall started (tasks sys') →
  one_admitted sys'.
Proof.
  revert sys. induction schedule as [|c rest IH]; intros sys Hsys Htimes.
  - cbn. intros [= <-] Hall.
    destruct Hsys as (t1 & t2 & Ht & Hcase & _). rewrite Ht in Hall.
    apply Forall_cons in Hall as [H1 [H2 _]%Forall_cons].
    by destruct Hcase as [[_ [p ->]]|[[p ->] _]].
  - cbn [run]. destruct (step OPENAI_API_KEY c sys) as [sys1|] eqn:Hstep; [|done].
    rewrite start_times_cons in Htimes. apply Forall_app in Htimes as [Hc Hrest].
    intros Hrun Hall.
    destruct (one_started_step ip n c sys sys1 Hsys Hc Hstep) as [H1|H1].
    + by eapply IH.
    + by eapply one_admitted_run.
Qed.

(** C3.  Two handlers of one identity on the event loop, both pending
    before either has run, the window of the identity empty after
    compaction at the instants they read, and these instants less than
    [WINDOW_SECONDS] apart: however the loop interleaves them, once both
    have started one of them was admitted and the other denied, and one
    outbound request was sent.  The call of [is_rate_limited] lies before
    the handler's only suspension point, so the loop runs its statements
    without another handler in between. *)
Theorem concurrent_calls_one_admitted schedule ip p1 p2 st sys' :
  Forall (λ now, compact now (window st ip) = []) (start_times schedule) →
  Forall (λ n1, Forall (λ n2, n2 - n1 < WINDOW_SECONDS) (start_times schedule))
    (start_times schedule) →
  run OPENAI_API_KEY schedule
    {| rate_limit_store := st; log := [];
       tasks := [Pending ip p1; Pending ip p2] |} = Some sys' →
  Forall started (tasks sys') →
  ∃ t1 t2, tasks sys' = [t1; t2] ∧
    ((admitted t1 ∧ denied t2) ∨ (denied t1 ∧ admitted t2)) ∧
    gateway_calls (log sys') = 1%nat.
Proof.
  intros Hempty Hnear Hrun Hall.
  destruct schedule as [|c rest].
  { cbn in Hrun. injection Hrun as <-. cbn in Hall.
    by apply Forall_cons in Hall as [[] _]. }
  cbn [run] in Hrun.
  destruct (step OPENAI_API_KEY c _) as [sys1|] eqn:Hstep; [|done].
  destruct c as [i now|i u].
  - cbn [start_times] in Hempty, Hnear.
    apply Forall_cons in Hempty as [Hnow _].
    apply Forall_cons in Hnear as [[_ Hrest]%Forall_cons _].
    apply (one_started_run ip now rest sys1); [|done..].
    apply step_Start_inv in Hstep as (ip' & p & Hi & Hst & Hverdict).
    cbn [rate_limit_store tasks log] in *.
    assert (ip' = ip) as ->.
    { destruct i as [|[|i]]; cbn in Hi; [congruence|congruence|done]. }
    assert (Hadm : (is_rate_limited now ip st).1 = false)
      by by rewrite is_rate_limited_verdict, Hnow.
    destruct Hverdict as [(Hlim & _)|(_ & [req Htasks] & Hlog)]; [congruence|].
    assert (Hw : window (rate_limit_store sys1) ip = [now])
      by by rewrite Hst, is_rate_limited_window, Hadm.
    destruct i as [|[|i]]; cbn in Hi, Htasks; [| |done].
    + exists (Awaiting req), (Pending ip p2).
      split; [done|]. split; [|done]. left. split; [done|by eexists].
    + exists (Pending ip p1), (Awaiting req).
      split; [done|]. split; [|done]. right. split; [by eexists|done].
  - apply step_Deliver_inv in Hstep as (req & Hi & _).
    destruct i as [|[|i]]; cbn in Hi; done.
Qed.

End EventLoopContract.

Section EventLoopExamples.
Import Json Limiter Handler EventLoop Examples.

Lemma concurrent_calls_one_admitted_witness :
  ∃ sys',
    run None [Start 1 100; Start 0 100; Deliver 1 PostRaises]
      {| rate_limit_store := ∅; log := [];
         tasks := [Pending "10.0.0.1" submission;
                   Pending "10.0.0.1" submission] |} = Some sys' ∧
    Forall started (tasks sys') ∧
    ∃ t1 t2, tasks sys' = [t1; t2] ∧
      ((admitted t1 ∧ denied t2) ∨ (denied t1 ∧ admitted t2)) ∧
      gateway_calls (log sys') = 1%nat.
Proof.
  eexists. split; [by vm_compute|].
  split; [by repeat constructor|].
  eapply (concurrent_calls_one_admitted None
            [Start 1 100; Start 0 100; Deliver 1 PostRaises]
            "10.0.0.1" submission submission ∅).
  - by repeat constructor.
  - repeat constructor; unfold WINDOW_SECONDS; lia.
  - by vm_compute.
  - by repeat constructor.
Defined.

End EventLoopExamples.

(** ** Further properties of the limiter *)

Section LimiterRuns.
Import StoreMonad Limiter Runs.

Implicit Types (st : store) (ip : string) (now t : Z) (w : list Z)
  (calls : list (string * Z)).

(** X1.  A call is limited exactly when the stored window of the caller
    holds a timestamp less than [WINDOW_SECONDS] before [now]: a timestamp
    exactly [WINDOW_SECONDS] old no longer counts, and one that lies after
    [now] (a clock set back) still does. *)
Theorem limited_iff_recent now ip st :
  (is_rate_limited now ip st).1 = true ↔
  ∃ t, t ∈ window st ip ∧ now - t < WINDOW_SECONDS.
Proof.
  rewrite is_rate_limited_verdict. unfold RATE_LIMIT.
  destruct (compact now (window st ip)) as [|t0 w0] eqn:Hc; cbn [length Nat.leb].
  - split; [done|]. intros (t & Ht & Hfresh).
    assert (Hin : t ∈ compact now (window st ip)) by by apply elem_of_compact.
    rewrite Hc in Hin. by apply elem_of_nil in Hin.
  - split; [|done]. intros _. exists t0. apply elem_of_compact.
    rewrite Hc. left.
Qed.

Lemma run_calls_cons ip now calls st :
  run_calls ((ip, now) :: calls) st =
    ((is_rate_limited now ip st).1
       :: (run_calls calls (is_rate_limited now ip st).2).1,
     (run_calls calls (is_rate_limited now ip st).2).2).
Proof.
  cbn [run_calls]. destruct (is_rate_limited now ip st) as [r st'].
  cbn [fst snd]. by destruct (run_calls calls st').
Qed.

Lemma is_rate_limited_dom now ip st :
  dom (is_rate_limited now ip st).2 = {[ ip ]} ∪ dom st.
Proof.
  rewrite is_rate_limited_unfold. cbv zeta.
  destruct (RATE_LIMIT <=? length (compact now (window st ip)))%nat;
    cbn [snd]; apply dom_insert_L.
Qed.

(** X3.  The store only grows: after a run it holds an entry for every
    identity it held before and for every identity that called, and for no
    other; no call removes an entry. *)
Theorem run_calls_dom calls st :
  dom (run_calls calls st).2 = dom st ∪ callers calls.
Proof.
  revert st. induction calls as [|[ip now] calls IH]; intros st.
  - unfold callers. cbn. by rewrite union_empty_r_L.
  - rewrite run_calls_cons. cbn [snd]. rewrite IH, is_rate_limited_dom.
    unfold callers. cbn [fmap list_fmap fst list_to_set].
    by rewrite (comm_L (∪) {[ ip ]} (dom st)), <- (assoc_L (∪)).
Qed.

(** While [m] is the window of [ip], a call of [ip] is recorded only
    at an instant at least [WINDOW_SECONDS] after [m]. *)
Lemma run_calls_recorded_after calls st ip m j t :
  window st ip = [m] →
  calls !! j = Some (ip, t) →
  (run_calls calls st).1 !! j = Some false →
  WINDOW_SECONDS ≤ t - m.
Proof.
  revert st m j. induction calls as [|[ip0 now] calls IH]; intros st m j Hw.
  - by rewrite lookup_nil.
  - rewrite run_calls_cons. cbn [fst].
    destruct (decide (ip0 = ip)) as [->|Hne].
    + assert (Hcase : (now - m < WINDOW_SECONDS ∧
                        (is_rate_limited now ip st).1 = true ∧
                        window (is_rate_limited now ip st).2 ip = [m]) ∨
                      (WINDOW_SECONDS ≤ now - m ∧
                        (is_rate_limited now ip st).1 = false ∧
                        window (is_rate_limited now ip st).2 ip = [now])).
      { rewrite is_rate_limited_window, is_rate_limited_verdict, Hw.
        destruct (decide (now - m < WINDOW_SECONDS)) as [Hlt|Hge].
        - left. by rewrite compact_singleton_keep.
        - right. unfold compact. rewrite filter_cons, decide_False by done.
          split; [lia|done]. }
      destruct j as [|j]; cbn [lookup list_lookup].
      * intros [= ->] [= Hr].
        destruct Hcase as [(_ & Hlim & _)|(Hge & _)]; [congruence|done].
      * intros Hj Hr.
        destruct Hcase as [(_ & _ & Hw')|(Hge & _ & Hw')].
        -- by eapply IH.
        -- pose proof (IH _ _ _ Hw' Hj Hr). unfold WINDOW_SECONDS in *. lia.
    + destruct j as [|j]; cbn [lookup list_lookup].
      * intros [= ? ?]. done.
      * apply IH. unfold window. rewrite is_rate_limited_other by done. apply Hw.
Qed.

(** X2.  In any run, from any store and whatever the clock does, two
    recorded calls of one identity are at least [WINDOW_SECONDS] apart: the
    later one reads an instant at least [WINDOW_SECONDS] after the earlier
    one. *)
Theorem recorded_calls_apart calls st ip i j a t :
  (i < j)%nat →
  calls !! i = Some (ip, a) → (run_calls calls st).1 !! i = Some false →
  calls !! j = Some (ip, t) → (run_calls calls st).1 !! j = Some false →
  WINDOW_SECONDS ≤ t - a.
Proof.
  revert st i j. induction calls as [|[ip0 now] calls IH]; intros st i j Hij.
  - by rewrite lookup_nil.
  - rewrite run_calls_cons. cbn [fst].
    destruct j as [|j]; [lia|]. destruct i as [|i]; cbn [lookup list_lookup].
    + intros [= -> ->] [= Hadm] Hj Hr.
      eapply run_calls_recorded_after; [|exact Hj|exact Hr].
      by rewrite is_rate_limited_window, Hadm.
    + apply IH. lia.
Qed.

Lemma recorded_calls_apart_witness :
  (run_calls [("10.0.0.1", 100); ("10.0.0.2", 150); ("10.0.0.1", 3700)] ∅).1
    = [false; false; false] ∧
  WINDOW_SECONDS ≤ 3700 - 100.
Proof.
  split; [by vm_compute|].
  apply (recorded_calls_apart
           [("10.0.0.1", 100); ("10.0.0.2", 150); ("10.0.0.1", 3700)]
           ∅ "10.0.0.1" 0 2 100 3700); [lia|reflexivity|by vm_compute|reflexivity|by vm_compute].
Defined.

(** X4.  On a store that the limiter reached from the empty store, a
    limited call changes nothing: the compaction it writes back has removed
    no timestamp. *)
Theorem limited_call_leaves_reachable_store calls now ip :
  let st := (run_calls calls ∅).2 in
  (is_rate_limited now ip st).1 = true →
  (is_rate_limited now ip st).2 = st.
Proof.
  cbv zeta. intros Hlim.
  pose proof (run_calls_window_ok calls ∅ (λ _, None)
                (λ i, lookup_empty i) ip) as Hok.
  set (st := (run_calls calls ∅).2) in *.
  destruct (last_access calls ip) as [n|]; cbn in Hok.
  - destruct Hok as (w & Hw & _ & Hlen).
    by eapply limited_call_keeps_short_window.
  - rewrite is_rate_limited_verdict in Hlim. unfold window in Hlim.
    rewrite Hok in Hlim. done.
Qed.

Lemma limited_call_leaves_reachable_store_witness :
  (is_rate_limited 200 "10.0.0.1" (run_calls [("10.0.0.1", 100)] ∅).2).1 = true ∧
  (is_rate_limited 200 "10.0.0.1" (run_calls [("10.0.0.1", 100)] ∅).2).2
    = (run_calls [("10.0.0.1", 100)] ∅).2.
Proof.
  assert (H : (is_rate_limited 200 "10.0.0.1"
                 (run_calls [("10.0.0.1", 100)] ∅).2).1 = true)
    by (by vm_compute).
  split; [exact H|].
  exact (limited_call_leaves_reachable_store [("10.0.0.1", 100)] 200 "10.0.0.1" H).
Defined.

(** A run of one identity sees of the store only the window of that
    identity. *)
Lemma run_identity_window_only ip times st1 st2 :
  window st1 ip = window st2 ip →
  (run_identity ip times st1).1 = (run_identity ip times st2).1 ∧
  window (run_identity ip times st1).2 ip =
    window (run_identity ip times st2).2 ip.
Proof.
  revert st1 st2. induction times as [|now rest IH]; intros st1 st2 Hw.
  - done.
  - rewrite !run_identity_cons. cbn [fst snd].
    assert (Hv : (is_rate_limited now ip st1).1 = (is_rate_limited now ip st2).1)
      by by rewrite !is_rate_limited_verdict, Hw.
    assert (Hw' : window (is_rate_limited now ip st1).2 ip =
                  window (is_rate_limited now ip st2).2 ip)
      by by rewrite !is_rate_limited_window, Hv, Hw.
    destruct (IH _ _ Hw') as [IH1 IH2]. by rewrite Hv, IH1.
Qed.

(** X5.  The calls of other identities in a run do not show: the verdicts
    that the calls of [ip] get in a run of several identities, and the
    window it leaves for [ip], are those of the calls of [ip] run alone. *)
Theorem run_calls_projection calls st ip :
  verdicts_of ip calls (run_calls calls st).1 =
    (run_identity ip (calls_of ip calls) st).1.*2 ∧
  window (run_calls calls st).2 ip =
    window (run_identity ip (calls_of ip calls) st).2 ip.
Proof.
  revert st. induction calls as [|[ip0 now] calls IH]; intros st.
  - done.
  - rewrite run_calls_cons. cbn [fst snd verdicts_of calls_of].
    destruct (String.eqb_spec ip0 ip) as [->|Hne].
    + rewrite run_identity_cons. cbn [fst snd fmap list_fmap].
      destruct (IH (is_rate_limited now ip st).2) as [IH1 IH2].
      by rewrite IH1, IH2.
    + destruct (IH (is_rate_limited now ip0 st).2) as [IH1 IH2].
      assert (Hw : window (is_rate_limited now ip0 st).2 ip = window st ip).
      { unfold window. by rewrite is_rate_limited_other. }
      destruct (run_identity_window_only ip (calls_of ip calls) _ _ Hw)
        as [H1 H2].
      by rewrite IH1, IH2, H1, H2.
Qed.

End LimiterRuns.

(** ** Further properties of the handler *)

Section HandlerRuns.
Import StoreMonad Text Json Prompt Limiter Handler.

Variable OPENAI_API_KEY : option string.

Implicit Types (st : store) (now : Z) (payload : AnswerRequest)
  (gateway : request → upstream) (u : upstream).

(** X6.  Line 93 finds a reply exactly in a parsed body that is an object
    whose ["choices"] is a non-empty list, whose first element is an object
    whose ["message"] is an object with a ["content"]; a missing key, an
    empty list or a value of another type at any of these places gives no
    reply (Python raises). *)
Theorem reply_of_shape (result reply : json) :
  reply_of result = Some reply ↔
  ∃ fields first rest message,
    result = JObj fields ∧
    assoc "choices" fields = Some (JArr (JObj first :: rest)) ∧
    assoc "message" first = Some (JObj message) ∧
    assoc "content" message = Some reply.
Proof.
  unfold reply_of. split.
  - destruct result as [| | | | |fields]; try done. cbn [subscript_key].
    destruct (assoc "choices" fields) as [choices|] eqn:Hc; [|done].
    cbn [mbind option_bind].
    destruct choices as [| | |[|c s]|[|first rest]|]; try done.
    cbn [subscript_0 mbind option_bind].
    destruct first as [| | | | |ffields]; try done. cbn [subscript_key].
    destruct (assoc "message" ffields) as [message|] eqn:Hm; [|done].
    cbn [mbind option_bind].
    destruct message as [| | | | |mfields]; try done. cbn [subscript_key].
    intros Hr. by exists fields, ffields, rest, mfields.
  - intros (fields & first & rest & message & -> & Hc & Hm & Hr).
    cbn [subscript_key]. rewrite Hc. cbn [mbind option_bind subscript_0 subscript_key].
    rewrite Hm. by cbn [mbind option_bind subscript_key].
Qed.



(** X8.  The handler sends one outbound request for a submission that the
    limiter lets through and none for one it limits, whatever the gateway
    delivers: it never tries again.  The request is a function of the
    submission and of the key only: neither the caller, nor the instant,
    nor the store shows in it. *)
Theorem grade_answer_requests gateway now client_ip payload st :
  let out := grade_answer OPENAI_API_KEY gateway now client_ip payload st in
  gateway_calls out.1.2 =
    (if (is_rate_limited now client_ip st).1 then 0 else 1)%nat ∧
  (∀ gateway' now' client_ip' st',
     (is_rate_limited now client_ip st).1 = false →
     (is_rate_limited now' client_ip' st').1 = false →
     List.filter is_post
       (grade_answer OPENAI_API_KEY gateway' now' client_ip' payload st').1.2 =
     List.filter is_post out.1.2).
Proof.
  cbv zeta.
  assert (Hposts : ∀ g n c s, (is_rate_limited n c s).1 = false →
            List.filter is_post (grade_answer OPENAI_API_KEY g n c payload s).1.2 =
            List.filter is_post
              (grade_answer_begin OPENAI_API_KEY n c payload s).1.2 ∧
            length (List.filter is_post
              (grade_answer_begin OPENAI_API_KEY n c payload s).1.2) = 1%nat).
  { intros g n c s Hadm. unfold grade_answer, mbind, M_bind, bind.
    destruct (grade_answer_begin_admitted OPENAI_API_KEY n c payload s Hadm)
      as (url & headers & data & ->).
    pose proof (grade_answer_resume_quiet (g (url, headers, data))) as [Hq _].
    destruct (grade_answer_resume (g (url, headers, data))) as [r events'].
    cbn [fst snd mret M_ret ret] in *. rewrite List.filter_app.
    unfold gateway_calls in Hq. apply length_zero_iff_nil in Hq. rewrite Hq.
    by rewrite app_nil_r. }
  split.
  - destruct (is_rate_limited now client_ip st).1 eqn:Hr.
    + unfold grade_answer, mbind, M_bind, bind.
      by rewrite grade_answer_begin_limited.
    + unfold gateway_calls. destruct (Hposts gateway now client_ip st Hr) as [-> ->].
      done.
  - intros g' n' c' s' Hadm Hadm'.
    destruct (Hposts gateway now client_ip st Hadm) as [-> _].
    destruct (Hposts g' n' c' s' Hadm') as [-> _].
    unfold grade_answer_begin, mbind, M_bind, bind.
    destruct (is_rate_limited now client_ip st) as [r1 s1].
    destruct (is_rate_limited n' c' s') as [r2 s2].
    cbn [fst] in Hadm, Hadm'. by subst r1 r2.
Qed.

End HandlerRuns.

(** ** Further properties of the prompt *)

Section PromptText.
Import Text Prompt.

Lemma append_assoc (s1 s2 s3 : string) : (s1 +:+ s2) +:+ s3 = s1 +:+ (s2 +:+ s3).
Proof.
  induction s1 as [|c s1 IH]; [done|].
  change ((String c s1 +:+ s2) +:+ s3) with (String c ((s1 +:+ s2) +:+ s3)).
  change (String c s1 +:+ (s2 +:+ s3)) with (String c (s1 +:+ (s2 +:+ s3))).
  by rewrite IH.
Qed.

Lemma append_inj_r (s x y : string) : s +:+ x = s +:+ y → x = y.
Proof.
  induction s as [|c s IH]; [done|].
  change (String c s +:+ x) with (String c (s +:+ x)).
  change (String c s +:+ y) with (String c (s +:+ y)).
  intros [= H]. by apply IH.
Qed.

Lemma append_length (s1 s2 : string) :
  String.length (s1 +:+ s2) = (String.length s1 + String.length s2)%nat.
Proof.
  induction s1 as [|c s1 IH]; [done|].
  change (String c s1 +:+ s2) with (String c (s1 +:+ s2)). cbn. by rewrite IH.
Qed.

Lemma append_inj_l (x y s : string) : x +:+ s = y +:+ s → x = y.
Proof.
  intros H.
  assert (Hlen : String.length x = String.length y).
  { apply (f_equal String.length) in H. rewrite !append_length in H. lia. }
  revert y H Hlen. induction x as [|c x IH]; intros [|d y] H Hlen; try done.
  change (String c x +:+ s) with (String c (x +:+ s)) in H.
  change (String d y +:+ s) with (String d (y +:+ s)) in H.
  injection H as -> H. f_equal. apply IH; [done|]. cbn in Hlen. lia.
Qed.

(** X9.  The mode shows in the prompt: for one question and answer, the
    prompt of mode ["drill"] differs from the prompt of every other mode,
    and all other modes give one and the same prompt.  The comparison is
    exact: ["Drill"] is another mode. *)
Theorem generate_prompt_mode (question answer mode mode' : string) :
  mode ≠ "drill" →
  generate_prompt question answer "drill" ≠ generate_prompt question answer mode ∧
  (mode' ≠ "drill" →
   generate_prompt question answer mode' = generate_prompt question answer mode) ∧
  generate_prompt question answer "Drill" = generate_prompt question answer mode.
Proof.
  intros Hmode.
  assert (Hkind : ∀ m, m ≠ "drill" →
            generate_prompt question answer m =
            generate_prompt question answer "mentor").
  { intros m Hm. unfold generate_prompt.
    by destruct (String.eqb_spec m "drill"). }
  split; [|split].
  - rewrite (Hkind mode Hmode). unfold generate_prompt. cbn [String.eqb Ascii.eqb].
    intros H. do 10 apply append_inj_r in H. discriminate H.
  - intros Hmode'. by rewrite (Hkind mode'), (Hkind mode).
  - by rewrite (Hkind "Drill"), (Hkind mode).
Qed.

Lemma generate_prompt_mode_witness :
  "mentor" ≠ "drill" ∧
  generate_prompt "What is a list?" "A tree" "drill" ≠
    generate_prompt "What is a list?" "A tree" "mentor".
Proof.
  assert (H : "mentor" ≠ "drill") by done.
  split; [exact H|].
  exact (proj1 (generate_prompt_mode "What is a list?" "A tree" "mentor" "mentor" H)).
Defined.

(** X10.  The template does not delimit what the user wrote.  For one
    question and mode the prompt determines the answer, and for one answer
    and mode it determines the question; but an answer that holds a line
    feed and the label of the answer line gives the prompt of another
    question and another answer. *)
Theorem generate_prompt_delimiting (question answer answer' mode : string) :
  (generate_prompt question answer mode = generate_prompt question answer' mode →
   answer = answer') ∧
  (∀ question',
     generate_prompt question answer mode = generate_prompt question' answer mode →
     question = question') ∧
  generate_prompt question
    (answer +:+ nl +:+ "Student's Answer: " +:+ answer') mode =
  generate_prompt
    (question +:+ nl +:+ "Student's Answer: " +:+ answer) answer' mode.
Proof.
  unfold generate_prompt. split; [|split].
  - intros H. do 7 apply append_inj_r in H.
    rewrite <- !append_assoc in H. by do 3 apply append_inj_l in H.
  - intros question' H. do 4 apply append_inj_r in H.
    rewrite <- !append_assoc in H. by do 6 apply append_inj_l in H.
  - by rewrite !append_assoc.
Qed.

Lemma generate_prompt_delimiting_witness :
  generate_prompt "Q" ("A" +:+ nl +:+ "Student's Answer: " +:+ "B") "mentor" =
  generate_prompt ("Q" +:+ nl +:+ "Student's Answer: " +:+ "A") "B" "mentor".
Proof.
  exact (proj2 (proj2 (generate_prompt_delimiting "Q" "A" "B" "mentor"))).
Defined.

End PromptText.

(** ** Any number of submissions in flight *)

Section EventLoopRuns.
Import StoreMonad Json Limiter Handler EventLoop Runs.

Variable OPENAI_API_KEY : option string.

Lemma near_cons n times :
  near (n :: times) →
  Forall (λ n2, n2 - n < WINDOW_SECONDS) times ∧ near times.
Proof.
  unfold near. intros [[_ Hn]%Forall_cons Hrest]%Forall_cons. split; [done|].
  eapply Forall_impl; [exact Hrest|]. cbn. by intros n1 [_ ?]%Forall_cons.
Qed.

(** What one step does to the handlers of [ip], the window of [ip] and the
    number of requests. *)
Lemma step_pending_for ip c sys sys' :
  Forall (pending_for ip) (tasks sys) →
  step OPENAI_API_KEY c sys = Some sys' →
  Forall (pending_for ip) (tasks sys') ∧
  match c with
  | Start _ now =>
      rate_limit_store sys' = (is_rate_limited now ip (rate_limit_store sys)).2 ∧
      gateway_calls (log sys') =
        (gateway_calls (log sys) +
         if (is_rate_limited now ip (rate_limit_store sys)).1 then 0 else 1)%nat
  | Deliver _ _ =>
      rate_limit_store sys' = rate_limit_store sys ∧
      gateway_calls (log sys') = gateway_calls (log sys)
  end.
Proof.
  intros Hall Hstep. destruct c as [i now|i u].
  - apply step_Start_inv in Hstep as (ip' & p & Hi & Hst & Hcase).
    assert (ip' = ip) as ->.
    { rewrite Forall_lookup in Hall. exact (Hall _ _ Hi). }
    destruct Hcase as [(Hlim & Htasks & Hlog)|(Hadm & [req Htasks] & Hlog)].
    + rewrite Htasks, Hlim. split; [|split; [done|lia]].
      apply Forall_insert; done.
    + rewrite Htasks, Hadm. split; [|split; [done|lia]].
      apply Forall_insert; done.
  - apply step_Deliver_inv in Hstep as (req & Hi & Hst & Htasks & Hlog).
    rewrite Htasks. split; [|done]. apply Forall_insert; done.
Qed.

(** Once an instant [n] is the window of [ip], handlers of [ip] that start
    less than [WINDOW_SECONDS] after it send nothing. *)
Lemma run_requests_after_first ip n schedule sys sys' :
  Forall (pending_for ip) (tasks sys) →
  window (rate_limit_store sys) ip = [n] →
  Forall (λ now, now - n < WINDOW_SECONDS) (start_times schedule) →
  run OPENAI_API_KEY schedule sys = Some sys' →
  gateway_calls (log sys') = gateway_calls (log sys).
Proof.
  revert sys. induction schedule as [|c rest IH]; intros sys Hall Hw Htimes.
  - cbn. by intros [= <-].
  - cbn [run]. destruct (step OPENAI_API_KEY c sys) as [sys1|] eqn:Hstep; [|done].
    intros Hrun.
    destruct (step_pending_for ip c sys sys1 Hall Hstep) as [Hall1 Hc].
    destruct c as [i now|i u]; cbn [start_times] in Htimes.
    + apply Forall_cons in Htimes as [Hnow Hrest].
      destruct Hc as [Hst Hlog].
      assert (Hlim : (is_rate_limited now ip (rate_limit_store sys)).1 = true).
      { rewrite is_rate_limited_verdict, Hw. by rewrite compact_singleton_keep. }
      rewrite Hlim in Hlog.
      rewrite (IH sys1); [lia|done| |done|done].
      rewrite Hst, is_rate_limited_window, Hlim, Hw.
      by apply compact_singleton_keep.
    + destruct Hc as [Hst Hlog].
      rewrite (IH sys1); [done|done| |done|done]. by rewrite Hst.
Qed.

Lemma run_requests_at_most_one ip schedule sys sys' :
  Forall (pending_for ip) (tasks sys) →
  near (start_times schedule) →
  run OPENAI_API_KEY schedule sys = Some sys' →
  (gateway_calls (log sys') ≤ gateway_calls (log sys) + 1)%nat.
Proof.
  revert sys. induction schedule as [|c rest IH]; intros sys Hall Hnear.
  - cbn. intros [= <-]. lia.
  - cbn [run]. destruct (step OPENAI_API_KEY c sys) as [sys1|] eqn:Hstep; [|done].
    intros Hrun.
    destruct (step_pending_for ip c sys sys1 Hall Hstep) as [Hall1 Hc].
    destruct c as [i now|i u]; cbn [start_times] in Hnear.
    + apply near_cons in Hnear as [Hafter Hnear].
      destruct Hc as [Hst Hlog].
      destruct (is_rate_limited now ip (rate_limit_store sys)).1 eqn:Hr.
      * pose proof (IH sys1 Hall1 Hnear Hrun). lia.
      * rewrite (run_requests_after_first ip now rest sys1 sys'); [lia|done| |done|done].
        by rewrite Hst, is_rate_limited_window, Hr.
    + destruct Hc as [Hst Hlog].
      pose proof (IH sys1 Hall1 Hnear Hrun). lia.
Qed.

(** X11.  Any number of submissions of one identity in flight on the event
    loop, started at instants less than [WINDOW_SECONDS] apart, from any
    store and in any interleaving: at most one outbound request is sent. *)
Theorem event_loop_one_request schedule ip pool st sys' :
  Forall (pending_for ip) pool →
  near (start_times schedule) →
  run OPENAI_API_KEY schedule
    {| rate_limit_store := st; log := []; tasks := pool |} = Some sys' →
  (gateway_calls (log sys') ≤ 1)%nat.
Proof.
  intros Hall Hnear Hrun.
  exact (run_requests_at_most_one ip schedule
           {| rate_limit_store := st; log := []; tasks := pool |} sys'
           Hall Hnear Hrun).
Qed.

End EventLoopRuns.

Section EventLoopRunsExamples.
Import Json Limiter Handler EventLoop Runs Examples.

Lemma event_loop_one_request_witness :
  ∃ sys',
    run None [Start 2 100; Start 0 101; Deliver 2 JsonRaises; Start 1 3699]
      {| rate_limit_store := ∅; log := [];
         tasks := [Pending "10.0.0.1" submission;
                   Pending "10.0.0.1" submission;
                   Pending "10.0.0.1" submission] |} = Some sys' ∧
    (gateway_calls (log sys') ≤ 1)%nat.
Proof.
  eexists. split; [by vm_compute|].
  eapply (event_loop_one_request None
            [Start 2 100; Start 0 101; Deliver 2 JsonRaises; Start 1 3699]
            "10.0.0.1"
            [Pending "10.0.0.1" submission; Pending "10.0.0.1" submission;
             Pending "10.0.0.1" submission] ∅).
  - by repeat constructor.
  - unfold near. cbn [start_times].
    repeat constructor; unfold WINDOW_SECONDS; lia.
  - by vm_compute.
Defined.

End EventLoopRunsExamples.

(** ** The shape of the stored windows *)

Section StoredWindows.
Import StoreMonad Limiter Runs.

Implicit Types (st : store) (ip : string) (now : Z)
  (calls : list (string * Z)).

Lemma run_calls_singletons calls st (Q : string → Z → Prop) :
  (∀ ip w, st !! ip = Some w → ∃ a, w = [a] ∧ Q ip a) →
  ∀ ip w, (run_calls calls st).2 !! ip = Some w →
          ∃ a, w = [a] ∧ (Q ip a ∨ (ip, a) ∈ calls).
Proof.
  revert st Q. induction calls as [|[ip0 now] calls IH]; intros st Q Hst ip w.
  - cbn. intros Hw. destruct (Hst ip w Hw) as (a & -> & Ha). eauto.
  - rewrite run_calls_cons. cbn [snd]. intros Hw.
    apply (IH _ (λ i a, Q i a ∨ (i, a) = (ip0, now))) in Hw.
    + destruct Hw as (a & -> & [[Ha|Ha]|Ha]); exists a; split; try done.
      * by left.
      * right. rewrite Ha. left.
      * right. by right.
    + clear ip w Hw. intros ip w Hw.
      destruct (decide (ip0 = ip)) as [->|Hne].
      * rewrite is_rate_limited_entry in Hw. injection Hw as <-.
        rewrite is_rate_limited_window.
        destruct (is_rate_limited now ip st).1 eqn:Hr; [|by eauto].
        rewrite is_rate_limited_verdict in Hr. unfold window in *.
        destruct (st !! ip) as [w0|] eqn:Hw0; [|done].
        destruct (Hst ip w0 Hw0) as (a & -> & Ha).
        cbn [default from_option id] in *. exists a. split; [|by left].
        unfold compact in *. rewrite filter_cons in *.
        by case_decide.
      * rewrite is_rate_limited_other in Hw by done.
        destruct (Hst ip w Hw) as (a & -> & Ha). eauto.
Qed.

(** X13.  In a store that the limiter reached from the empty store an
    entry is never the empty window and never holds two timestamps: it is
    the single instant of a call that its identity made in the run. *)
Theorem reachable_windows_are_singletons calls ip w :
  (run_calls calls ∅).2 !! ip = Some w →
  ∃ a, w = [a] ∧ (ip, a) ∈ calls.
Proof.
  intros Hw.
  destruct (run_calls_singletons calls ∅ (λ _ _, False)) with (ip := ip) (w := w)
    as (a & -> & [[]|Ha]); [|done|by eauto].
  intros i w0. by rewrite lookup_empty.
Qed.

Lemma reachable_windows_are_singletons_witness :
  (run_calls [("10.0.0.1", 100); ("10.0.0.1", 200)] ∅).2 !! "10.0.0.1"
    = Some [100] ∧
  ∃ a, [100] = [a] ∧ ("10.0.0.1", a) ∈ [("10.0.0.1", 100); ("10.0.0.1", 200)].
Proof.
  assert (H : (run_calls [("10.0.0.1", 100); ("10.0.0.1", 200)] ∅).2 !! "10.0.0.1"
              = Some [100]) by (by vm_compute).
  split; [exact H|].
  exact (reachable_windows_are_singletons
           [("10.0.0.1", 100); ("10.0.0.1", 200)] "10.0.0.1" [100] H).
Defined.

End StoredWindows.
